(** * A shallow embedding of the maze game of [main.py]

    The development follows the source file top to bottom: constants and
    helper functions, the [Maze] class, the [Actor] family, and the state
    logic of [Game].  Rendering and window handling are left out.

    Conventions.
    - Python [float] values (pixel positions, speeds) are read as exact
      rationals ([Q]); [int] values as [Z].  A property that depends on the
      exact value of a float sum is stated for the cells and positions on
      which the code computes without rounding ([small_cell], [in_window]).
    - A Python exception ([IndexError] of a list subscript or of
      [random.choice] on an empty sequence) is the result [None].
    - [random.choice] draws from an explicit random source, a list of
      naturals consumed from its head.
    - [pygame.time.get_ticks()] is an argument [now] of the method that
      reads it; [pygame.time.set_timer] records the armed delay in the game
      state. *)

From Stdlib Require Import ZArith QArith Qround Qabs Lia Lqa.
From stdpp Require Import base option list list_numbers gmap sets.

Local Open Scope Z_scope.
#[local] Set Warnings "-clear-no-such-hyp".

(** ** Config and constants *)

Definition maze_layout : list (list Z) :=
  [ [1; 1; 1; 1; 1; 1; 1];
    [1; 2; 2; 3; 2; 2; 1];
    [1; 2; 1; 1; 1; 2; 1];
    [1; 2; 2; 2; 2; 2; 1];
    [1; 3; 1; 1; 1; 3; 1];
    [1; 2; 2; 2; 2; 2; 1];
    [1; 1; 1; 1; 1; 1; 1] ].

Definition TILE_SIZE : Z := 64.
Definition UI_HEIGHT : Z := 64.

Definition PACMAN_SPEED : Q := 3.
Definition GHOST_SPEED : Q := 26 # 10.
Definition POWER_DURATION_MS : Z := 6000.
Definition PELLET_SCORE : Z := 10.
Definition POWER_PELLET_SCORE : Z := 50.
Definition GHOST_EAT_SCORE : Z := 200.

Definition Cell : Type := Z * Z.
Definition Dir : Type := Z * Z.
Definition Pos : Type := Q * Q.

Definition UP : Dir := (0, -1).
Definition DOWN : Dir := (0, 1).
Definition LEFT : Dir := (-1, 0).
Definition RIGHT : Dir := (1, 0).
Definition STOP : Dir := (0, 0).

(** ** Python primitives used by the source *)

(** [l[i]] with Python's negative indices; [None] is [IndexError]. *)
Definition py_index {A} (l : list A) (i : Z) : option nat :=
  let n := Z.of_nat (length l) in
  if bool_decide (0 <= i < n) then Some (Z.to_nat i)
  else if bool_decide (- n <= i < 0) then Some (Z.to_nat (n + i))
  else None.

Definition py_get {A} (l : list A) (i : Z) : option A :=
  k ← py_index l i; l !! k.

(** [l[i] = v]. *)
Definition py_set {A} (l : list A) (i : Z) (v : A) : option (list A) :=
  k ← py_index l i; Some (<[k := v]> l).

(** [l.remove(x)]: drops the first occurrence. *)
Fixpoint py_remove {A} `{EqDecision A} (x : A) (l : list A) : list A :=
  match l with
  | [] => []
  | y :: l' => if decide (x = y) then l' else y :: py_remove x l'
  end.

(** [for i in range(n): s = body(i, s)], stopping at the first exception. *)
Fixpoint for_each {S} (xs : list Z) (body : Z → S → option S) (s : S) : option S :=
  match xs with
  | [] => Some s
  | x :: xs' => s' ← body x s; for_each xs' body s'
  end.

Definition range (n : Z) : list Z := seqZ 0 n.

Definition Qltb (a b : Q) : bool := negb (Qle_bool b a).

(** [a // b] and [a % b] on floats with a positive integer divisor. *)
Definition floordiv (a : Q) (b : Z) : Z := Qfloor (a / inject_Z b).
Definition pymod (a : Q) (b : Z) : Q := (a - inject_Z b * inject_Z (floordiv a b))%Q.

(** [int(q)]: truncation toward zero. *)
Definition Qtrunc (q : Q) : Z := Z.quot (Qnum q) (Zpos (Qden q)).

(** The random source. *)
Definition Rng : Type := list nat.

Definition random_choice {A} (l : list A) (rng : Rng) : option (A * Rng) :=
  x ← l !! (hd 0%nat rng `mod` length l)%nat; Some (x, tl rng).

(** ** Helper functions *)

Definition add_tuple (a b : Z * Z) : Z * Z := (a.1 + b.1, a.2 + b.2).

Definition opposite (d : Dir) : Dir := (- d.1, - d.2).

Definition grid_to_pixel (cell : Cell) : Pos :=
  let '(c, r) := cell in
  (inject_Z (c * TILE_SIZE) + inject_Z TILE_SIZE / 2,
   inject_Z (r * TILE_SIZE) + inject_Z TILE_SIZE / 2 + inject_Z UI_HEIGHT)%Q.

Definition pixel_to_grid (p : Pos) : Cell :=
  let '(x, y) := p in
  let y := (y - inject_Z UI_HEIGHT)%Q in
  (floordiv x TILE_SIZE, floordiv y TILE_SIZE).

Definition is_centered (p : Pos) : bool :=
  let '(x, y) := p in
  let gx := pymod (x - inject_Z TILE_SIZE / 2)%Q TILE_SIZE in
  let gy := pymod (y - inject_Z UI_HEIGHT - inject_Z TILE_SIZE / 2)%Q TILE_SIZE in
  Qltb (Qabs gx) (1 # 2) && Qltb (Qabs gy) (1 # 2).

(** ** Maze *)

Record Maze : Type := mkMaze {
  layout : list (list Z);
  rows : Z;
  cols : Z;
  pellets : gset Cell;
  power_pellets : gset Cell
}.

(** Body of the two nested loops of [_scan_pellets]. *)
Definition scan_cell (lay : list (list Z)) (r c : Z)
    (st : gset Cell * gset Cell) : option (gset Cell * gset Cell) :=
  row ← py_get lay r;
  v ← py_get row c;
  if bool_decide (v = 2) then Some ({[ (c, r) ]} ∪ st.1, st.2)
  else if bool_decide (v = 3) then Some (st.1, {[ (c, r) ]} ∪ st.2)
  else Some st.

Definition scan_pellets (lay : list (list Z)) (nrows ncols : Z)
    : option (gset Cell * gset Cell) :=
  for_each (range nrows)
    (λ r st, for_each (range ncols) (λ c st', scan_cell lay r c st') st)
    (∅, ∅).

Definition Maze_init (lay : list (list Z)) : option Maze :=
  let nrows := Z.of_nat (length lay) in
  row0 ← py_get lay 0;
  let ncols := Z.of_nat (length row0) in
  st ← scan_pellets lay nrows ncols;
  Some (mkMaze lay nrows ncols st.1 st.2).

Definition in_bounds (m : Maze) (cell : Cell) : bool :=
  let '(c, r) := cell in
  bool_decide (0 <= r < rows m) && bool_decide (0 <= c < cols m).

Definition is_wall (m : Maze) (cell : Cell) : option bool :=
  if negb (in_bounds m cell) then Some true
  else
    let '(c, r) := cell in
    row ← py_get (layout m) r;
    v ← py_get row c;
    Some (bool_decide (v = 1)).

(** [self.layout[r][c] = v]: the row object is updated in place. *)
Definition layout_set (lay : list (list Z)) (r c v : Z) : option (list (list Z)) :=
  row ← py_get lay r;
  row' ← py_set row c v;
  py_set lay r row'.

Definition eat_at (m : Maze) (cell : Cell) : option (Z * Maze) :=
  if decide (cell ∈ pellets m) then
    lay ← layout_set (layout m) cell.2 cell.1 0;
    Some (PELLET_SCORE,
          mkMaze lay (rows m) (cols m) (pellets m ∖ {[ cell ]}) (power_pellets m))
  else if decide (cell ∈ power_pellets m) then
    lay ← layout_set (layout m) cell.2 cell.1 0;
    Some (POWER_PELLET_SCORE,
          mkMaze lay (rows m) (cols m) (pellets m) (power_pellets m ∖ {[ cell ]}))
  else Some (0, m).

Definition remaining_dots (m : Maze) : Z :=
  Z.of_nat (size (pellets m)) + Z.of_nat (size (power_pellets m)).

(** The comprehension [[p for p in candidates if not self.is_wall(p)]]. *)
Fixpoint keep_open (m : Maze) (ps : list Cell) : option (list Cell) :=
  match ps with
  | [] => Some []
  | p :: ps' =>
      w ← is_wall m p;
      rest ← keep_open m ps';
      Some (if w : bool then rest else p :: rest)
  end.

Definition neighbors_open (m : Maze) (cell : Cell) : option (list Cell) :=
  let '(c, r) := cell in
  let candidates := [(c + 1, r); (c - 1, r); (c, r + 1); (c, r - 1)] in
  keep_open m candidates.

(** ** Actors *)

Record Actor : Type := mkActor {
  pos : Pos;
  dir : Dir;
  speed : Q
}.

Definition Actor_init (cell : Cell) (spd : Q) : Actor :=
  mkActor (grid_to_pixel cell) STOP spd.

Definition current_cell (a : Actor) : Cell := pixel_to_grid (pos a).

Definition set_dir (a : Actor) (new_dir : Dir) : Actor :=
  mkActor (pos a) new_dir (speed a).

Definition set_pos (a : Actor) (p : Pos) : Actor :=
  mkActor p (dir a) (speed a).

Definition can_move_dir (m : Maze) (a : Actor) (d : Dir) : option bool :=
  let '(x, y) := pos a in
  let nx := (x + inject_Z d.1)%Q in
  let ny := (y + inject_Z d.2)%Q in
  let next_cell := pixel_to_grid (nx, ny) in
  let ahead_cell := add_tuple (current_cell a) d in
  blocked ← (if is_centered (pos a) then is_wall m ahead_cell else Some false);
  if blocked : bool then Some false
  else w ← is_wall m next_cell; Some (negb w).

(** The loop [for _ in range(int(self.speed))] of [move], with its [break]. *)
Fixpoint move_steps (m : Maze) (n : nat) (a : Actor) : option Actor :=
  match n with
  | O => Some a
  | S n' =>
      ok ← can_move_dir m a (dir a);
      if ok : bool then
        move_steps m n'
          (set_pos a ((pos a).1 + inject_Z (dir a).1, (pos a).2 + inject_Z (dir a).2)%Q)
      else Some a
  end.

Definition Actor_move (m : Maze) (a : Actor) : option Actor :=
  if bool_decide (dir a = STOP) then Some a
  else
    a1 ← move_steps m (Z.to_nat (Qtrunc (speed a))) a;
    let frac := (speed a1 - inject_Z (Qtrunc (speed a1)))%Q in
    if Qltb 0 frac then
      ok ← can_move_dir m a1 (dir a1);
      if ok : bool then
        Some (set_pos a1 ((pos a1).1 + inject_Z (dir a1).1 * frac,
                          (pos a1).2 + inject_Z (dir a1).2 * frac)%Q)
      else Some a1
    else Some a1.

Record Pacman : Type := mkPacman {
  p_actor : Actor;
  pending_dir : Dir
}.

Definition Pacman_init (cell : Cell) : Pacman :=
  mkPacman (Actor_init cell PACMAN_SPEED) STOP.

Definition Pacman_update (m : Maze) (p : Pacman) : option Pacman :=
  a ← (if bool_decide (pending_dir p ≠ STOP) && is_centered (pos (p_actor p)) then
         w ← is_wall m (add_tuple (current_cell (p_actor p)) (pending_dir p));
         if w : bool then Some (p_actor p)
         else Some (set_dir (p_actor p) (pending_dir p))
       else Some (p_actor p));
  a' ← Actor_move m a;
  Some (mkPacman a' (pending_dir p)).

(** [handle_event] for the four arrow keys: only the buffered direction changes. *)
Definition Pacman_handle_key (p : Pacman) (d : Dir) : Pacman :=
  mkPacman (p_actor p) d.

Record Ghost : Type := mkGhost {
  g_actor : Actor;
  frightened : bool;
  respawn_cell : Cell;
  alive : bool
}.

Definition ALL_DIRS : list Dir := [UP; DOWN; LEFT; RIGHT].

Definition Ghost_init (cell : Cell) (rng : Rng) : option (Ghost * Rng) :=
  '(d, rng') ← random_choice ALL_DIRS rng;
  Some (mkGhost (set_dir (Actor_init cell GHOST_SPEED) d) false cell true, rng').

(** The loop [for d in dirs] of [available_dirs]. *)
Fixpoint available_loop (m : Maze) (a : Actor) (dirs valid : list Dir)
    : option (list Dir) :=
  match dirs with
  | [] => Some valid
  | d :: dirs' =>
      w ← is_wall m (add_tuple (current_cell a) d);
      if w : bool then available_loop m a dirs' valid
      else if bool_decide (d = opposite (dir a)) && negb (is_centered (pos a))
      then available_loop m a dirs' valid
      else available_loop m a dirs' (valid ++ [d])
  end.

Definition available_dirs (m : Maze) (a : Actor) : option (list Dir) :=
  valid ← available_loop m a ALL_DIRS [];
  Some (match valid with [] => [opposite (dir a)] | _ => valid end).

Definition Ghost_update (m : Maze) (gh : Ghost) (rng : Rng) : option (Ghost * Rng) :=
  '(a, rng') ←
    (if is_centered (pos (g_actor gh)) then
       options ← available_dirs m (g_actor gh);
       let options' :=
         if bool_decide (1 < length options)%nat
            && bool_decide (opposite (dir (g_actor gh)) ∈ options)
         then py_remove (opposite (dir (g_actor gh))) options
         else options in
       '(d, rng') ← random_choice options' rng;
       Some (set_dir (g_actor gh) d, rng')
     else Some (g_actor gh, rng));
  a' ← Actor_move m a;
  Some (mkGhost a' (frightened gh) (respawn_cell gh) (alive gh), rng').

Definition reset_to_spawn (gh : Ghost) (rng : Rng) : option (Ghost * Rng) :=
  '(d, rng') ← random_choice ALL_DIRS rng;
  Some (mkGhost (set_dir (set_pos (g_actor gh) (grid_to_pixel (respawn_cell gh))) d)
                false (respawn_cell gh) true, rng').

(** [for g in self.ghosts: g.f()] for a method [f] that draws random numbers. *)
Fixpoint each_ghost (f : Ghost → Rng → option (Ghost * Rng)) (gs : list Ghost)
    (rng : Rng) : option (list Ghost * Rng) :=
  match gs with
  | [] => Some ([], rng)
  | gh :: gs' =>
      '(gh', rng1) ← f gh rng;
      '(gs'', rng2) ← each_ghost f gs' rng1;
      Some (gh' :: gs'', rng2)
  end.

(** ** Game *)

Record Game : Type := mkGame {
  maze : Maze;
  pacman : Pacman;
  ghosts : list Ghost;
  score : Z;
  lives : Z;
  power_expires_at : Z;
  win : bool;
  game_over : bool;
  (** delay armed by [pygame.time.set_timer(USEREVENT + 1, _, loops=1)] *)
  respawn_timer : option Z
}.

Definition PACMAN_SPAWN : Cell := (3, 3).
Definition RESPAWN_DELAY_MS : Z := 1500.

(** [Game.__init__].  The timers of the pygame runtime are not touched by
    it: [tm] is the delay armed when it is called. *)
Definition Game_init (tm : option Z) (rng : Rng) : option (Game * Rng) :=
  m ← Maze_init maze_layout;
  '(g1, rng1) ← Ghost_init (3, 1) rng;
  '(g2, rng2) ← Ghost_init (3, 5) rng1;
  Some (mkGame m (Pacman_init PACMAN_SPAWN) [g1; g2] 0 3 0 false false tm, rng2).

Definition set_frightened (gh : Ghost) (b : bool) : Ghost :=
  mkGhost (g_actor gh) b (respawn_cell gh) (alive gh).

Definition set_power_mode (g : Game) (now : Z) : Game :=
  mkGame (maze g) (pacman g)
    ((λ gh, if alive gh then set_frightened gh true else gh) <$> ghosts g)
    (score g) (lives g) (now + POWER_DURATION_MS) (win g) (game_over g)
    (respawn_timer g).

Definition update_power_mode (g : Game) (now : Z) : Game :=
  if bool_decide (power_expires_at g ≠ 0) && bool_decide (power_expires_at g < now) then
    mkGame (maze g) (pacman g) ((λ gh, set_frightened gh false) <$> ghosts g)
      (score g) (lives g) 0 (win g) (game_over g) (respawn_timer g)
  else g.

Definition eat_logic (g : Game) (now : Z) : option Game :=
  let cell := current_cell (p_actor (pacman g)) in
  '(gained, m') ← eat_at (maze g) cell;
  let g1 := mkGame m' (pacman g) (ghosts g) (score g) (lives g)
              (power_expires_at g) (win g) (game_over g) (respawn_timer g) in
  if bool_decide (gained ≠ 0) then
    let g2 := mkGame m' (pacman g) (ghosts g) (score g + gained) (lives g)
                (power_expires_at g) (win g) (game_over g) (respawn_timer g) in
    if bool_decide (gained = POWER_PELLET_SCORE) then Some (set_power_mode g2 now)
    else Some g2
  else Some g1.

(** [math.hypot(dx, dy) < TILE_SIZE * 0.6], as the comparison of the squares
    (the threshold is positive). *)
Definition within_reach (p q : Pos) : bool :=
  let dx := (p.1 - q.1)%Q in
  let dy := (p.2 - q.2)%Q in
  let t := (inject_Z TILE_SIZE * (6 # 10))%Q in
  Qltb (dx * dx + dy * dy) (t * t).

Definition reset_round (g : Game) (rng : Rng) : option (Game * Rng) :=
  '(gs, rng') ← each_ghost reset_to_spawn (ghosts g) rng;
  Some (mkGame (maze g) (Pacman_init PACMAN_SPAWN) gs (score g) (lives g) 0
          (win g) (game_over g) (respawn_timer g), rng').

Definition eaten (gh : Ghost) : Ghost :=
  mkGhost (g_actor gh) false (respawn_cell gh) false.

(** The loop [for g in self.ghosts] of [collision_logic].  The result is the
    list of adversaries as the loop leaves it, the score, the armed timer,
    and whether the loop was left through the branch that costs a life. *)
Fixpoint collision_loop (ppos : Pos) (gs : list Ghost) (sc : Z) (tm : option Z)
    : list Ghost * Z * option Z * bool :=
  match gs with
  | [] => ([], sc, tm, false)
  | gh :: gs' =>
      if negb (alive gh) then
        let '(r, sc', tm', hit) := collision_loop ppos gs' sc tm in
        (gh :: r, sc', tm', hit)
      else if within_reach ppos (pos (g_actor gh)) then
        if frightened gh then
          let '(r, sc', tm', hit) :=
            collision_loop ppos gs' (sc + GHOST_EAT_SCORE) (Some RESPAWN_DELAY_MS) in
          (eaten gh :: r, sc', tm', hit)
        else (gh :: gs', sc, tm, true)
      else
        let '(r, sc', tm', hit) := collision_loop ppos gs' sc tm in
        (gh :: r, sc', tm', hit)
  end.

Definition collision_logic (g : Game) (rng : Rng) : option (Game * Rng) :=
  let '(gs, sc, tm, hit) :=
    collision_loop (pos (p_actor (pacman g))) (ghosts g) (score g) (respawn_timer g) in
  if hit : bool then
    let lives' := lives g - 1 in
    let over := if bool_decide (lives' <= 0) then true else game_over g in
    reset_round
      (mkGame (maze g) (pacman g) gs sc lives' (power_expires_at g) (win g) over tm) rng
  else
    Some (mkGame (maze g) (pacman g) gs sc (lives g) (power_expires_at g) (win g)
            (game_over g) tm, rng).

Definition check_win (g : Game) : Game :=
  if bool_decide (remaining_dots (maze g) = 0) then
    mkGame (maze g) (pacman g) (ghosts g) (score g) (lives g) (power_expires_at g)
      true true (respawn_timer g)
  else g.

(** The [USEREVENT + 1] branch of the event loop. *)
Definition respawn_event (g : Game) (rng : Rng) : option (Game * Rng) :=
  '(gs, rng') ← each_ghost (λ gh r, if alive gh then Some (gh, r) else reset_to_spawn gh r)
                  (ghosts g) rng;
  Some (mkGame (maze g) (pacman g) gs (score g) (lives g) (power_expires_at g)
          (win g) (game_over g) None, rng').

(** The block [if not self.game_over: ...] of [run]: one tick of updates.
    [now_pm] and [now_eat] are the clock readings of [update_power_mode] and
    [set_power_mode]. *)
Definition update_tick (g : Game) (rng : Rng) (now_pm now_eat : Z)
    : option (Game * Rng) :=
  if game_over g then Some (g, rng)
  else
    p ← Pacman_update (maze g) (pacman g);
    '(gs, rng1) ← each_ghost (Ghost_update (maze g)) (ghosts g) rng;
    let g1 := mkGame (maze g) p gs (score g) (lives g) (power_expires_at g)
                (win g) (game_over g) (respawn_timer g) in
    let g2 := update_power_mode g1 now_pm in
    g3 ← eat_logic g2 now_eat;
    '(g4, rng2) ← collision_logic g3 rng1;
    Some (check_win g4, rng2).

(** * Specification vocabulary

    Invariants, reachability relations and the concrete states used by the
    properties below. *)

(** The entry [layout[r][c]] as one read. *)
Definition cell_value (lay : list (list Z)) (r c : Z) : option Z :=
  row ← py_get lay r; py_get row c.

(** Every entry inside the bounds can be read, a pellet sits on an entry
    marked 2 and a power pellet on an entry marked 3. *)
Record maze_ok (m : Maze) : Prop := {
  ok_total : ∀ r c, 0 <= r < rows m → 0 <= c < cols m →
    is_Some (cell_value (layout m) r c);
  ok_pellets : ∀ c r, (c, r) ∈ pellets m →
    (0 <= r < rows m ∧ 0 <= c < cols m) ∧ cell_value (layout m) r c = Some 2;
  ok_power : ∀ c r, (c, r) ∈ power_pellets m →
    (0 <= r < rows m ∧ 0 <= c < cols m) ∧ cell_value (layout m) r c = Some 3
}.

(** What the inner loop over the columns [done] of row [r] has collected. *)
Definition row_scanned (lay : list (list Z)) (r : Z) (st0 : gset Cell * gset Cell) (done : list Z)
    (st : gset Cell * gset Cell) : Prop :=
  (∀ c, c ∈ done → is_Some (cell_value lay r c)) ∧
  (∀ cell, cell ∈ st.1 ↔
     cell ∈ st0.1 ∨ ∃ c, c ∈ done ∧ cell = (c, r) ∧ cell_value lay r c = Some 2) ∧
  (∀ cell, cell ∈ st.2 ↔
     cell ∈ st0.2 ∨ ∃ c, c ∈ done ∧ cell = (c, r) ∧ cell_value lay r c = Some 3).

(** What the outer loop over the rows [done] has collected. *)
Definition rows_scanned (lay : list (list Z)) (cs : list Z) (done : list Z)
    (st : gset Cell * gset Cell) : Prop :=
  (∀ r c, r ∈ done → c ∈ cs → is_Some (cell_value lay r c)) ∧
  (∀ cell, cell ∈ st.1 ↔
     ∃ r c, r ∈ done ∧ c ∈ cs ∧ cell = (c, r) ∧ cell_value lay r c = Some 2) ∧
  (∀ cell, cell ∈ st.2 ↔
     ∃ r c, r ∈ done ∧ c ∈ cs ∧ cell = (c, r) ∧ cell_value lay r c = Some 3).

(** The states of a maze over its lifetime: as built, then after each
    successful call of [eat_at] (the only method that mutates a maze). *)
Inductive lifetime (m0 : Maze) : Maze → Prop :=
  | life_built : lifetime m0 m0
  | life_eat m cell s m' :
      lifetime m0 m → eat_at m cell = Some (s, m') → lifetime m0 m'.

(** The maze of the game, as [Maze(maze_layout)] builds it. *)
Definition initial_maze : Maze :=
  default (mkMaze [] 0 0 ∅ ∅) (Maze_init maze_layout).

(** The maze after the pellet of cell (1, 1) was consumed. *)
Definition maze_after_eat : Maze :=
  default initial_maze (snd <$> eat_at initial_maze (1, 1)).

(** The five direction constants. *)
Definition legal_dir (d : Dir) : Prop :=
  d = UP ∨ d = DOWN ∨ d = LEFT ∨ d = RIGHT ∨ d = STOP.

(** The grid cell a position resolves to is not a wall. *)
Definition off_wall (m : Maze) (p : Pos) : Prop :=
  is_wall m (pixel_to_grid p) = Some false.

(** The invariant of a run, actor by actor and for the whole game. *)
Definition actor_ok (m : Maze) (a : Actor) : Prop :=
  legal_dir (dir a) ∧ off_wall m (pos a).

Definition ghost_ok (m : Maze) (gh : Ghost) : Prop :=
  actor_ok m (g_actor gh) ∧ is_wall m (respawn_cell gh) = Some false.

Record game_ok (g : Game) : Prop := {
  gok_maze : maze_ok (maze g);
  gok_pacman : actor_ok (maze g) (p_actor (pacman g));
  gok_pending : legal_dir (pending_dir (pacman g));
  gok_spawn : is_wall (maze g) PACMAN_SPAWN = Some false;
  gok_ghosts : Forall (ghost_ok (maze g)) (ghosts g)
}.

Definition set_pacman (g : Game) (p : Pacman) : Game :=
  mkGame (maze g) p (ghosts g) (score g) (lives g) (power_expires_at g)
    (win g) (game_over g) (respawn_timer g).

(** What one pass of the loop of [run] can do to the game: handle an arrow
    key, restart after the end of a game, handle the respawn event, or run
    the updates of one tick. *)
Inductive frame_step : Game * Rng → Game * Rng → Prop :=
  | step_key g rng d :
      game_over g = false → d ∈ ALL_DIRS →
      frame_step (g, rng) (set_pacman g (Pacman_handle_key (pacman g) d), rng)
  | step_restart g rng s' :
      game_over g = true → Game_init (respawn_timer g) rng = Some s' →
      frame_step (g, rng) s'
  | step_respawn g rng s' :
      respawn_event g rng = Some s' → frame_step (g, rng) s'
  | step_tick g rng now_pm now_eat s' :
      update_tick g rng now_pm now_eat = Some s' → frame_step (g, rng) s'.

(** The states of a run: [Game()], then any number of passes. *)
Inductive run_state : Game * Rng → Prop :=
  | run_start rng s : Game_init None rng = Some s → run_state s
  | run_step s s' : run_state s → frame_step s s' → run_state s'.

Definition actors_off_walls (g : Game) : Prop :=
  off_wall (maze g) (pos (p_actor (pacman g)))
  ∧ Forall (λ gh, off_wall (maze g) (pos (g_actor gh))) (ghosts g).

(** The offset of a position from the center of the cell that contains it. *)
Definition center_offset (p : Pos) : Pos :=
  let c := grid_to_pixel (pixel_to_grid p) in
  (p.1 - c.1, p.2 - c.2)%Q.

(** [gh'] is [gh] put back on its spawn cell, alive and not frightened. *)
Definition respawned (gh gh' : Ghost) : Prop :=
  pos (g_actor gh') = grid_to_pixel (respawn_cell gh)
  ∧ current_cell (g_actor gh') = respawn_cell gh
  ∧ respawn_cell gh' = respawn_cell gh
  ∧ alive gh' = true ∧ frightened gh' = false.

(** An Adversary that costs the Player a life: alive, not frightened, and
    within reach. *)
Definition lethal (ppos : Pos) (gh : Ghost) : bool :=
  alive gh && negb (frightened gh) && within_reach ppos (pos (g_actor gh)).

(** The loop leaves positions and spawn cells alone. *)
Definition same_place (gh gh' : Ghost) : Prop :=
  g_actor gh' = g_actor gh ∧ respawn_cell gh' = respawn_cell gh.

(** A game on its last life: the Player in cell (1, 1), one Adversary thirty
    units to its right, alive and not frightened, the other on its spawn. *)
Definition last_life_game : Game :=
  mkGame initial_maze
    (mkPacman (mkActor (grid_to_pixel (1, 1)) RIGHT PACMAN_SPEED) RIGHT)
    [ mkGhost (mkActor ((126 # 1)%Q, (160 # 1)%Q) LEFT GHOST_SPEED) false (3, 1) true;
      mkGhost (mkActor (grid_to_pixel (3, 5)) LEFT GHOST_SPEED) false (3, 5) true ]
    40 1 0 false false None.

Definition set_ghosts (g : Game) (gs : list Ghost) : Game :=
  mkGame (maze g) (pacman g) gs (score g) (lives g) (power_expires_at g)
    (win g) (game_over g) (respawn_timer g).

(** A game in which the first Adversary is dead and sits exactly on the
    Player, and the second is far away. *)
Definition dead_on_player_game : Game :=
  mkGame initial_maze
    (mkPacman (mkActor (grid_to_pixel (1, 1)) RIGHT PACMAN_SPEED) RIGHT)
    [ mkGhost (mkActor (grid_to_pixel (1, 1)) LEFT GHOST_SPEED) false (3, 1) false;
      mkGhost (mkActor (grid_to_pixel (3, 5)) LEFT GHOST_SPEED) false (3, 5) true ]
    240 1 0 false false (Some RESPAWN_DELAY_MS).

(** What [set_power_mode] does to one Adversary: an alive one is marked
    frightened, a dead one is left as it is. *)
Definition frightened_if_alive (gh gh' : Ghost) : Prop :=
  g_actor gh' = g_actor gh ∧ respawn_cell gh' = respawn_cell gh
  ∧ alive gh' = alive gh
  ∧ frightened gh' = (if alive gh then true else frightened gh).

(** The Player on the power pellet of cell (3, 1), one Adversary alive and
    one dead. *)
Definition on_power_pellet_game : Game :=
  mkGame initial_maze
    (mkPacman (mkActor (grid_to_pixel (3, 1)) RIGHT PACMAN_SPEED) RIGHT)
    [ mkGhost (mkActor (grid_to_pixel (1, 3)) UP GHOST_SPEED) false (3, 1) false;
      mkGhost (mkActor (grid_to_pixel (3, 5)) LEFT GHOST_SPEED) false (3, 5) true ]
    0 3 0 false false None.

(** A game in which the first Adversary is dead, on cell (3, 1) and heading
    left; the Player and the second Adversary are on their spawn cells. *)
Definition dead_ghost_game : Game :=
  mkGame initial_maze (Pacman_init PACMAN_SPAWN)
    [ mkGhost (mkActor (grid_to_pixel (3, 1)) LEFT GHOST_SPEED) false (3, 1) false;
      mkGhost (mkActor (grid_to_pixel (3, 5)) LEFT GHOST_SPEED) false (3, 5) true ]
    200 3 0 false false (Some RESPAWN_DELAY_MS).

(** The same Adversary with its alive flag set. *)
Definition revive (gh : Ghost) : Ghost :=
  mkGhost (g_actor gh) (frightened gh) (respawn_cell gh) true.

(** The four cells next to a cell. *)
Definition adjacent (cell p : Cell) : Prop :=
  p = (cell.1 + 1, cell.2) ∨ p = (cell.1 - 1, cell.2)
  ∨ p = (cell.1, cell.2 + 1) ∨ p = (cell.1, cell.2 - 1).

(** The layouts [Maze] accepts: not empty, and no row shorter than the first. *)
Definition layout_accepted (lay : list (list Z)) : Prop :=
  match lay with
  | [] => False
  | row0 :: _ => Forall (λ row, (length row0 <= length row)%nat) lay
  end.

(** The cell next to an actor's cell in direction [d] is not a wall. *)
Definition open_dir (m : Maze) (a : Actor) (d : Dir) : Prop :=
  is_wall m (add_tuple (current_cell a) d) = Some false.

(** An Adversary the Player eats on contact: alive, frightened, and within
    reach. *)
Definition edible (ppos : Pos) (gh : Ghost) : bool :=
  alive gh && frightened gh && within_reach ppos (pos (g_actor gh)).

Definition eaten_count (ppos : Pos) (gs : list Ghost) : Z :=
  Z.of_nat (length (List.filter (edible ppos) gs)).

(** A dead Adversary is not frightened. *)
Definition flags_ok (gh : Ghost) : Prop :=
  alive gh = false → frightened gh = false.

(** What the respawn event does to one Adversary. *)
Definition revived_if_dead (gh gh' : Ghost) : Prop :=
  if alive gh then gh' = gh else respawned gh gh'.

(** The Player next to a frightened Adversary and far from a normal one. *)
Definition frightened_near_game : Game :=
  mkGame initial_maze
    (mkPacman (mkActor (grid_to_pixel (1, 1)) RIGHT PACMAN_SPEED) RIGHT)
    [ mkGhost (mkActor ((126 # 1)%Q, (160 # 1)%Q) LEFT GHOST_SPEED) true (3, 1) true;
      mkGhost (mkActor (grid_to_pixel (3, 5)) LEFT GHOST_SPEED) true (3, 5) true ]
    40 2 9000 false false None.

(** The state of a run after [Game()], and after the updates of one tick. *)
Definition start_state : Game * Rng :=
  default (dead_ghost_game, []) (Game_init None [1%nat; 2%nat; 3%nat]).

Definition state_after_first_tick : Game * Rng :=
  default start_state (update_tick start_state.1 start_state.2 16 16).

(** An Adversary whose actor, spawn cell and alive flag were kept. *)
Definition kept (gh gh' : Ghost) : Prop :=
  g_actor gh' = g_actor gh ∧ respawn_cell gh' = respawn_cell gh
  ∧ alive gh' = alive gh.

(** The dead Adversary of [dead_ghost_game], what [Ghost.update] makes of it,
    and the game after one tick. *)
Definition dead_ghost : Ghost :=
  mkGhost (mkActor (grid_to_pixel (3, 1)) LEFT GHOST_SPEED) false (3, 1) false.

Definition dead_ghost_updated : Ghost * Rng :=
  default (dead_ghost, []) (Ghost_update (maze dead_ghost_game) dead_ghost []).

Definition after_dead_ghost_tick : Game * Rng :=
  default (dead_ghost_game, []) (update_tick dead_ghost_game [] 0 0).

(** A game in which the first Adversary is dead and the second, alive and
    not frightened, is about to catch the Player; and the game after the
    tick on which it does. *)
Definition dead_and_lethal_game : Game :=
  mkGame initial_maze
    (mkPacman (mkActor (grid_to_pixel (1, 1)) RIGHT PACMAN_SPEED) RIGHT)
    [ mkGhost (mkActor (grid_to_pixel (4, 5)) LEFT GHOST_SPEED) false (3, 5) false;
      mkGhost (mkActor ((126 # 1)%Q, (160 # 1)%Q) LEFT GHOST_SPEED) false (3, 1) true ]
    200 3 0 false false (Some RESPAWN_DELAY_MS).

Definition after_lost_life : Game * Rng :=
  default (dead_and_lethal_game, []) (update_tick dead_and_lethal_game [] 0 0).

(** Cells and positions on which the code's float arithmetic is exact: the
    pixel coordinates of a cell of at most 2^40 in absolute value are
    computed without rounding, and so are the subtractions of [is_centered]
    on a position from the center of cell (0, 0) on, up to 2^40 pixels; a
    unit step from such a position is not lost to rounding either. *)
Definition small_cell (c : Cell) : Prop :=
  Z.abs c.1 <= 2 ^ 40 ∧ Z.abs c.2 <= 2 ^ 40.

Definition in_window (p : Pos) : Prop :=
  (32 <= p.1 <= inject_Z (2 ^ 40))%Q ∧ (96 <= p.2 <= inject_Z (2 ^ 40))%Q.

(** [n] ticks in a row with the clock at [now], and an arrow key. *)
Fixpoint ticks (n : nat) (s : Game * Rng) (now : Z) : option (Game * Rng) :=
  match n with
  | O => Some s
  | S n' => s' ← update_tick s.1 s.2 now now; ticks n' s' now
  end.

Definition press_key (d : Dir) (s : Game * Rng) : Game * Rng :=
  (set_pacman s.1 (Pacman_handle_key (pacman s.1) d), s.2).

(** A run in which an Adversary dies: [Game()], the left key and 43 ticks
    take the Player to the corner cell (1, 3); the down key and 40 ticks
    take it over the power pellet of cell (1, 4) and on to the second
    Adversary, which it eats. *)
Definition run_begin : Game * Rng :=
  default (dead_ghost_game, []) (Game_init None [2%nat; 2%nat]).

Definition run_at_corner : Game * Rng :=
  default run_begin (ticks 43 (press_key LEFT run_begin) 0).

Definition run_with_dead_ghost : Game * Rng :=
  default run_at_corner (ticks 40 (press_key DOWN run_at_corner) 0).

(** The maze after the pellets of the given cells were eaten. *)
Definition eat_cells (m : Maze) (cells : list Cell) : Maze :=
  foldl (λ m c, default m (snd <$> eat_at m c)) m cells.

(** A game in which the only pellet left is the one under the Player, who
    stands still on the spawn cell, and its state after one tick. *)
Definition last_pellet_game : Game :=
  mkGame
    (eat_cells initial_maze
       (elements (pellets initial_maze ∖ {[PACMAN_SPAWN]})
        ++ elements (power_pellets initial_maze)))
    (Pacman_init PACMAN_SPAWN)
    [ mkGhost (mkActor (grid_to_pixel (3, 1)) LEFT GHOST_SPEED) false (3, 1) true;
      mkGhost (mkActor (grid_to_pixel (3, 5)) LEFT GHOST_SPEED) false (3, 5) true ]
    250 3 0 false false None.

Definition after_last_pellet : Game * Rng :=
  default (last_pellet_game, []) (update_tick last_pellet_game [] 0 0).

(** * Properties *)

(** ** Python list subscripts at non-negative indices *)

Lemma py_get_nonneg {A} (l : list A) (i : Z) :
  0 <= i → py_get l i = l !! Z.to_nat i.
Proof.
  intros Hi. unfold py_get, py_index.
  repeat case_bool_decide; simpl; try lia; try done.
  symmetry. apply lookup_ge_None. lia.
Qed.

Lemma py_set_nonneg {A} (l : list A) (i : Z) (v : A) :
  0 <= i < Z.of_nat (length l) → py_set l i v = Some (<[Z.to_nat i := v]> l).
Proof.
  intros Hi. unfold py_set, py_index. case_bool_decide; [done | lia].
Qed.

Lemma is_wall_cell_value m c r :
  is_wall m (c, r) =
    if negb (in_bounds m (c, r)) then Some true
    else (λ v, bool_decide (v = 1)) <$> cell_value (layout m) r c.
Proof.
  unfold is_wall, cell_value. destruct (negb _); [done |].
  destruct (py_get (layout m) r) as [row |]; simpl; [| done].
  by destruct (py_get row c).
Qed.

Lemma layout_set_value lay r c v :
  0 <= r → 0 <= c → is_Some (cell_value lay r c) →
  ∃ lay', layout_set lay r c v = Some lay' ∧
    length lay' = length lay ∧
    ∀ r' c', 0 <= r' → 0 <= c' →
      cell_value lay' r' c' =
        if decide (r' = r ∧ c' = c) then Some v else cell_value lay r' c'.
Proof.
  intros Hr Hc [w Hw]. unfold cell_value, layout_set in *.
  rewrite py_get_nonneg in Hw |- * by done.
  destruct (lay !! Z.to_nat r) as [row |] eqn:Hrow; simpl in *; [| done].
  rewrite py_get_nonneg in Hw by done.
  pose proof (lookup_lt_Some _ _ _ Hw) as Hlc.
  pose proof (lookup_lt_Some _ _ _ Hrow) as Hlr.
  rewrite py_set_nonneg by lia. simpl. rewrite py_set_nonneg by lia.
  eexists. split; [done |]. split; [by rewrite length_insert |].
  intros r' c' Hr' Hc'. rewrite !py_get_nonneg by done.
  destruct (decide (r' = r ∧ c' = c)) as [[-> ->] | Hne].
  - rewrite list_lookup_insert_eq by done. simpl.
    rewrite py_get_nonneg by done. by rewrite list_lookup_insert_eq.
  - destruct (decide (r' = r)) as [-> | Hrne].
    + rewrite list_lookup_insert_eq by done. simpl. rewrite Hrow. simpl.
      rewrite !py_get_nonneg by done.
      apply list_lookup_insert_ne. intros Heq. apply Hne. split; [done | lia].
    + rewrite list_lookup_insert_ne; [done |]. intros Heq. apply Hrne. lia.
Qed.

(** ** The maze invariant *)

Lemma for_each_inv {S} (I : list Z → S → Prop) (body : Z → S → option S) xs :
  (∀ done x s1 s2, I done s1 → body x s1 = Some s2 → I (done ++ [x]) s2) →
  ∀ pre s s', I pre s → for_each xs body s = Some s' → I (pre ++ xs) s'.
Proof.
  intros Hbody. induction xs as [| x xs IH]; intros pre s s' Hpre Hrun; simpl in Hrun.
  - rewrite app_nil_r. by simplify_eq.
  - destruct (body x s) as [s1 |] eqn:Hx; simpl in Hrun; [| done].
    replace (pre ++ x :: xs) with ((pre ++ [x]) ++ xs) by by rewrite <- app_assoc.
    eapply IH; [| done]. by eapply Hbody.
Qed.

Lemma scan_cell_spec lay r c st st' :
  scan_cell lay r c st = Some st' →
  is_Some (cell_value lay r c) ∧
  (∀ cell, cell ∈ st'.1 ↔ cell ∈ st.1 ∨ (cell = (c, r) ∧ cell_value lay r c = Some 2)) ∧
  (∀ cell, cell ∈ st'.2 ↔ cell ∈ st.2 ∨ (cell = (c, r) ∧ cell_value lay r c = Some 3)).
Proof.
  unfold scan_cell, cell_value.
  destruct (py_get lay r) as [row |]; simpl; [| done].
  destruct (py_get row c) as [v |]; simpl; [| done].
  intros Hst. split; [by eexists |].
  repeat case_bool_decide; simplify_eq; simpl; split; intros cell;
    rewrite ?elem_of_union, ?elem_of_singleton; intuition congruence.
Qed.

Lemma scan_row_spec lay r cs st0 st :
  for_each cs (λ c st', scan_cell lay r c st') st0 = Some st →
  row_scanned lay r st0 cs st.
Proof.
  intros Hrun.
  apply (for_each_inv (row_scanned lay r st0) _ cs) with (pre := []) (s := st0) in Hrun;
    [done | |].
  - clear. intros done x s1 s2 (Ht & H1 & H2) Hx.
    apply scan_cell_spec in Hx as (Hs & Hx1 & Hx2).
    split; [| split].
    + intros c [Hc | ->%list_elem_of_singleton]%elem_of_app; auto.
    + intros cell. rewrite Hx1, H1. split.
      * intros [[? | (c & ? & ? & ?)] | [-> ?]];
          [by left | right; exists c | right; exists x];
          (split; [apply elem_of_app; rewrite list_elem_of_singleton; auto | done]).
      * intros [? | (c & [? | ->%list_elem_of_singleton]%elem_of_app & ? & ?)];
          [by left; left | left; right; by exists c | by right].
    + intros cell. rewrite Hx2, H2. split.
      * intros [[? | (c & ? & ? & ?)] | [-> ?]];
          [by left | right; exists c | right; exists x];
          (split; [apply elem_of_app; rewrite list_elem_of_singleton; auto | done]).
      * intros [? | (c & [? | ->%list_elem_of_singleton]%elem_of_app & ? & ?)];
          [by left; left | left; right; by exists c | by right].
  - split; [| split]; [by intros c ?%elem_of_nil | |];
      intros cell; split; [auto | intros [? | (c & ?%elem_of_nil & _)]; done | auto |
                           intros [? | (c & ?%elem_of_nil & _)]; done].
Qed.

Lemma scan_pellets_spec lay nr nc st :
  scan_pellets lay nr nc = Some st → rows_scanned lay (range nc) (range nr) st.
Proof.
  unfold scan_pellets. intros Hrun.
  apply (for_each_inv (rows_scanned lay (range nc)) _ (range nr))
    with (pre := []) (s := (∅, ∅)) in Hrun; [done | |].
  - clear. intros done r s1 s2 (Ht & H1 & H2) Hr.
    apply scan_row_spec in Hr as (Hs & Hr1 & Hr2).
    split; [| split].
    + intros r' c [Hc | ->%list_elem_of_singleton]%elem_of_app; auto.
    + intros cell. rewrite Hr1, H1. split.
      * intros [(r' & c & ? & ?) | (c & ? & ?)];
          [exists r', c | exists r, c];
          (split; [apply elem_of_app; rewrite list_elem_of_singleton; auto | done]).
      * intros (r' & c & [? | ->%list_elem_of_singleton]%elem_of_app & ?);
          [left; by exists r', c | right; by exists c].
    + intros cell. rewrite Hr2, H2. split.
      * intros [(r' & c & ? & ?) | (c & ? & ?)];
          [exists r', c | exists r, c];
          (split; [apply elem_of_app; rewrite list_elem_of_singleton; auto | done]).
      * intros (r' & c & [? | ->%list_elem_of_singleton]%elem_of_app & ?);
          [left; by exists r', c | right; by exists c].
  - split; [| split]; [by intros r c ?%elem_of_nil | |]; intros cell; simpl;
      (split; [by intros ?%elem_of_empty | by intros (r & c & ?%elem_of_nil & _)]).
Qed.

Lemma Maze_init_ok lay m : Maze_init lay = Some m → maze_ok m.
Proof.
  unfold Maze_init. destruct (py_get lay 0) as [row0 |]; simpl; [| done].
  destruct (scan_pellets _ _ _) as [st |] eqn:Hscan; simpl; [| done].
  intros [= <-]. apply scan_pellets_spec in Hscan as (Ht & H1 & H2).
  unfold range in *. split; simpl.
  - intros r c Hr Hc. apply Ht; apply elem_of_seqZ; lia.
  - intros c r (r' & c' & Hr'%elem_of_seqZ & Hc'%elem_of_seqZ & [= -> ->] & Hv)%H1.
    split; [lia | done].
  - intros c r (r' & c' & Hr'%elem_of_seqZ & Hc'%elem_of_seqZ & [= -> ->] & Hv)%H2.
    split; [lia | done].
Qed.

Lemma eat_layout m cell :
  maze_ok m → cell ∈ pellets m ∨ cell ∈ power_pellets m →
  ∃ lay', layout_set (layout m) cell.2 cell.1 0 = Some lay' ∧
    ∀ r c, 0 <= r → 0 <= c →
      cell_value lay' r c =
        if decide (r = cell.2 ∧ c = cell.1) then Some 0 else cell_value (layout m) r c.
Proof.
  intros Hok Hin. destruct cell as [c0 r0]. simpl.
  assert ((0 <= r0 < rows m ∧ 0 <= c0 < cols m) ∧ is_Some (cell_value (layout m) r0 c0))
    as [Hb Hs].
  { destruct Hin as [Hin | Hin];
      [apply (ok_pellets _ Hok) in Hin | apply (ok_power _ Hok) in Hin];
      destruct Hin as [? ->]; eauto. }
  destruct (layout_set_value (layout m) r0 c0 0) as (lay' & Hset & _ & Hval);
    [lia | lia | done |].
  by exists lay'.
Qed.

Lemma pellets_disjoint m cell :
  maze_ok m → cell ∈ pellets m → cell ∈ power_pellets m → False.
Proof.
  intros Hok H1 H2. destruct cell as [c r].
  apply (ok_pellets _ Hok) in H1 as [_ H1].
  apply (ok_power _ Hok) in H2 as [_ H2]. congruence.
Qed.

(** One successful call of [eat_at] on a maze that satisfies the invariant. *)
Lemma eat_at_ok m cell s m' :
  maze_ok m → eat_at m cell = Some (s, m') →
  maze_ok m' ∧ rows m' = rows m ∧ cols m' = cols m ∧
  ∀ c, is_wall m' c = is_wall m c.
Proof.
  intros Hok Heat.
  assert (∀ lay' ps pps,
    (∀ r c, 0 <= r → 0 <= c →
       cell_value lay' r c =
         if decide (r = cell.2 ∧ c = cell.1) then Some 0 else cell_value (layout m) r c) →
    (cell ∈ pellets m ∨ cell ∈ power_pellets m) →
    (∀ x, x ∈ ps → x ∈ pellets m ∧ x ≠ cell) →
    (∀ x, x ∈ pps → x ∈ power_pellets m ∧ x ≠ cell) →
    let m1 := mkMaze lay' (rows m) (cols m) ps pps in
    maze_ok m1 ∧ rows m1 = rows m ∧ cols m1 = cols m ∧
    ∀ c, is_wall m1 c = is_wall m c) as Hgen.
  { intros lay' ps pps Hval Hin Hps Hpps m1.
    assert (∀ c r, (c, r) ≠ cell → ¬ (r = cell.2 ∧ c = cell.1)) as Hne.
    { intros c r Hne [-> ->]. by destruct cell. }
    split; [| split; [done | split; [done |]]].
    - split; simpl.
      + intros r c Hr Hc. rewrite Hval by lia.
        destruct (decide (r = cell.2 ∧ c = cell.1)); [by eexists |].
        by apply (ok_total _ Hok).
      + intros c r [Hc Hcne]%Hps. apply (ok_pellets _ Hok) in Hc as [Hb Hv].
        split; [done |]. rewrite Hval by lia. rewrite decide_False; auto.
      + intros c r [Hc Hcne]%Hpps. apply (ok_power _ Hok) in Hc as [Hb Hv].
        split; [done |]. rewrite Hval by lia. rewrite decide_False; auto.
    - intros [c r]. rewrite !is_wall_cell_value.
      change (in_bounds m1 (c, r)) with (in_bounds m (c, r)).
      destruct (in_bounds m (c, r)) eqn:Hb; simpl; [| done].
      unfold in_bounds in Hb. apply andb_prop in Hb as [Hr%bool_decide_eq_true Hc%bool_decide_eq_true].
      rewrite Hval by lia.
      destruct (decide (r = cell.2 ∧ c = cell.1)) as [[-> ->] |]; [| done]. destruct cell as [c0 r0]; simpl.
      destruct Hin as [Hin | Hin];
        [apply (ok_pellets _ Hok) in Hin | apply (ok_power _ Hok) in Hin];
        destruct Hin as [_ ->]; done. }
  unfold eat_at in Heat.
  destruct (decide (cell ∈ pellets m)) as [Hp | Hnp].
  - destruct (eat_layout m cell Hok (or_introl Hp)) as (lay' & Hset & Hval).
    rewrite Hset in Heat. simpl in Heat. injection Heat as <- <-.
    apply Hgen; [done | by left | |].
    + intros x Hx. set_solver.
    + intros x Hx. split; [done |]. intros ->. by eapply pellets_disjoint.
  - destruct (decide (cell ∈ power_pellets m)) as [Hpp | Hnpp].
    + destruct (eat_layout m cell Hok (or_intror Hpp)) as (lay' & Hset & Hval).
      rewrite Hset in Heat. simpl in Heat. injection Heat as <- <-.
      apply Hgen; [done | by right | |].
      * intros x Hx. split; [done |]. by intros ->.
      * intros x Hx. set_solver.
    + by injection Heat as <- <-.
Qed.

Lemma is_wall_total m cell : maze_ok m → is_Some (is_wall m cell).
Proof.
  intros Hok. destruct cell as [c r]. rewrite is_wall_cell_value.
  destruct (in_bounds m (c, r)) eqn:Hb; simpl; [| by eexists].
  unfold in_bounds in Hb.
  apply andb_prop in Hb as [Hr%bool_decide_eq_true Hc%bool_decide_eq_true].
  destruct (ok_total _ Hok r c Hr Hc) as [v ->]. by eexists.
Qed.

(** ** The lifetime of a maze: built once, then only consumed from *)

Lemma lifetime_ok m0 m : maze_ok m0 → lifetime m0 m → maze_ok m.
Proof.
  intros Hok Hlife. induction Hlife as [| m cell s m' _ IH Heat]; [done |].
  by apply (eat_at_ok m cell s m').
Qed.

Lemma lifetime_is_wall m0 m cell :
  maze_ok m0 → lifetime m0 m → is_wall m cell = is_wall m0 cell.
Proof.
  intros Hok Hlife. induction Hlife as [| m c s m' Hlife IH Heat]; [done |].
  rewrite <- IH. apply (eat_at_ok m c s m'); [| done]. by eapply lifetime_ok.
Qed.

Lemma eat_at_shrinks m cell s m' :
  eat_at m cell = Some (s, m') →
  pellets m' ⊆ pellets m ∧ power_pellets m' ⊆ power_pellets m.
Proof.
  unfold eat_at. repeat case_decide.
  - destruct (layout_set _ _ _ _); simpl; [| done]. intros [= <- <-]. simpl. set_solver.
  - destruct (layout_set _ _ _ _); simpl; [| done]. intros [= <- <-]. simpl. set_solver.
  - by intros [= <- <-].
Qed.

Lemma lifetime_shrinks m0 m :
  lifetime m0 m → pellets m ⊆ pellets m0 ∧ power_pellets m ⊆ power_pellets m0.
Proof.
  induction 1 as [| m cell s m' _ [IH1 IH2] Heat]; [done |].
  apply eat_at_shrinks in Heat as [H1 H2]. split; set_solver.
Qed.

Lemma lifetime_trans m0 m1 m2 : lifetime m0 m1 → lifetime m1 m2 → lifetime m0 m2.
Proof.
  intros H01 H12. induction H12 as [| m cell s m' _ IH Heat]; [done |].
  by eapply life_eat.
Qed.

Lemma eat_at_empty m cell :
  cell ∉ pellets m → cell ∉ power_pellets m → eat_at m cell = Some (0, m).
Proof. intros H1 H2. unfold eat_at. by rewrite !decide_False. Qed.

Lemma eat_at_pellet m cell :
  maze_ok m → cell ∈ pellets m →
  ∃ m1, eat_at m cell = Some (PELLET_SCORE, m1) ∧
    pellets m1 = pellets m ∖ {[ cell ]} ∧ power_pellets m1 = power_pellets m.
Proof.
  intros Hok Hin. destruct (eat_layout m cell Hok (or_introl Hin)) as (lay' & Hset & _).
  unfold eat_at. rewrite decide_True by done. rewrite Hset. simpl. by eexists.
Qed.

Lemma eat_at_power m cell :
  maze_ok m → cell ∈ power_pellets m →
  ∃ m1, eat_at m cell = Some (POWER_PELLET_SCORE, m1) ∧
    pellets m1 = pellets m ∧ power_pellets m1 = power_pellets m ∖ {[ cell ]}.
Proof.
  intros Hok Hin. destruct (eat_layout m cell Hok (or_intror Hin)) as (lay' & Hset & _).
  unfold eat_at. rewrite decide_False by (intros ?; by eapply pellets_disjoint).
  rewrite decide_True by done. rewrite Hset. simpl. by eexists.
Qed.

Lemma initial_maze_built : Maze_init maze_layout = Some initial_maze.
Proof. vm_compute. reflexivity. Qed.

Lemma initial_maze_ok : maze_ok initial_maze.
Proof. exact (Maze_init_ok _ _ initial_maze_built). Qed.

(** ** Claims about the maze *)

(** C5. In every state of a maze's lifetime, a cell that holds a pellet or a
    power pellet is consumed by the first [eat_at]: the call returns the
    nonzero score of that item and removes the cell from its set (the other
    set is untouched).  Every later [eat_at] on the same cell, also after
    other cells were consumed in between, returns zero and leaves the maze,
    hence both sets, unchanged. *)
Theorem eat_at_idempotent lay m0 m cell :
  Maze_init lay = Some m0 → lifetime m0 m →
  cell ∈ pellets m ∨ cell ∈ power_pellets m →
  ∃ s m1,
    eat_at m cell = Some (s, m1) ∧ s ≠ 0 ∧
    (cell ∈ pellets m →
       s = PELLET_SCORE ∧ pellets m1 = pellets m ∖ {[ cell ]}
       ∧ power_pellets m1 = power_pellets m) ∧
    (cell ∈ power_pellets m →
       s = POWER_PELLET_SCORE ∧ power_pellets m1 = power_pellets m ∖ {[ cell ]}
       ∧ pellets m1 = pellets m) ∧
    ∀ m2, lifetime m1 m2 → eat_at m2 cell = Some (0, m2).
Proof.
  intros Hinit Hlife Hin.
  assert (maze_ok m) as Hok by (eapply lifetime_ok; eauto using Maze_init_ok).
  assert (∀ s m1, eat_at m cell = Some (s, m1) →
            cell ∉ pellets m1 → cell ∉ power_pellets m1 →
            ∀ m2, lifetime m1 m2 → eat_at m2 cell = Some (0, m2)) as Hlater.
  { intros s m1 Heat Hn1 Hn2 m2 H12.
    apply lifetime_shrinks in H12 as [S1 S2]. apply eat_at_empty; set_solver. }
  destruct Hin as [Hin | Hin].
  - destruct (eat_at_pellet m cell Hok Hin) as (m1 & Heat & Hp & Hpp).
    exists PELLET_SCORE, m1. split; [done |]. split; [done |].
    split; [done |]. split.
    + intros Hin'. exfalso. by eapply pellets_disjoint.
    + apply (Hlater _ _ Heat).
      * rewrite Hp. set_solver.
      * rewrite Hpp. intros Hin'. by eapply pellets_disjoint.
  - destruct (eat_at_power m cell Hok Hin) as (m1 & Heat & Hp & Hpp).
    exists POWER_PELLET_SCORE, m1. split; [done |]. split; [done |].
    split; [| split; [done |]].
    + intros Hin'. exfalso. by eapply pellets_disjoint.
    + apply (Hlater _ _ Heat).
      * rewrite Hp. intros Hin'. by eapply pellets_disjoint.
      * rewrite Hpp. set_solver.
Qed.

Lemma eat_at_idempotent_witness :
  ∃ s m1,
    eat_at initial_maze (1, 1) = Some (s, m1) ∧ s ≠ 0 ∧
    ((1, 1) ∈ pellets initial_maze →
       s = PELLET_SCORE ∧ pellets m1 = pellets initial_maze ∖ {[ (1, 1) ]}
       ∧ power_pellets m1 = power_pellets initial_maze) ∧
    ((1, 1) ∈ power_pellets initial_maze →
       s = POWER_PELLET_SCORE
       ∧ power_pellets m1 = power_pellets initial_maze ∖ {[ (1, 1) ]}
       ∧ pellets m1 = pellets initial_maze) ∧
    ∀ m2, lifetime m1 m2 → eat_at m2 (1, 1) = Some (0, m2).
Proof.
  apply (eat_at_idempotent maze_layout initial_maze initial_maze (1, 1)).
  - vm_compute. reflexivity.
  - apply life_built.
  - left. vm_compute. reflexivity.
Defined.

(** C6. [is_wall] is constant over the lifetime of a maze: in every state
    reached from the constructed maze by calls of [eat_at], [is_wall]
    answers on every cell what it answered at construction, and one more
    [eat_at], on any cell, does not change any answer either. *)
Theorem is_wall_constant lay m0 m c :
  Maze_init lay = Some m0 → lifetime m0 m →
  is_Some (is_wall m0 c) ∧
  is_wall m c = is_wall m0 c ∧
  ∀ cell, ∃ s m', eat_at m cell = Some (s, m') ∧ is_wall m' c = is_wall m c.
Proof.
  intros Hinit Hlife.
  assert (maze_ok m0) as Hok0 by eauto using Maze_init_ok.
  assert (maze_ok m) as Hok by (by eapply lifetime_ok).
  split; [by apply is_wall_total |]. split; [by apply lifetime_is_wall |].
  intros cell.
  assert (∃ s m', eat_at m cell = Some (s, m')) as (s & m' & Heat).
  { destruct (decide (cell ∈ pellets m)) as [Hp | Hp].
    - destruct (eat_at_pellet m cell Hok Hp) as (m1 & Heat & _). eauto.
    - destruct (decide (cell ∈ power_pellets m)) as [Hpp | Hpp].
      + destruct (eat_at_power m cell Hok Hpp) as (m1 & Heat & _). eauto.
      + rewrite eat_at_empty by done. eauto. }
  exists s, m'. split; [done |]. by apply (eat_at_ok m cell s m').
Qed.

Lemma maze_after_eat_life : lifetime initial_maze maze_after_eat.
Proof.
  apply (life_eat _ initial_maze (1, 1) PELLET_SCORE); [apply life_built |].
  vm_compute. reflexivity.
Qed.

Lemma is_wall_constant_witness :
  is_Some (is_wall initial_maze (1, 1)) ∧
  is_wall maze_after_eat (1, 1) = is_wall initial_maze (1, 1) ∧
  ∀ cell, ∃ s m',
    eat_at maze_after_eat cell = Some (s, m') ∧
    is_wall m' (1, 1) = is_wall maze_after_eat (1, 1).
Proof.
  apply (is_wall_constant maze_layout initial_maze maze_after_eat (1, 1)).
  - vm_compute. reflexivity.
  - exact maze_after_eat_life.
Defined.

Lemma Maze_init_sets lay m :
  Maze_init lay = Some m →
  layout m = lay ∧
  ∀ c r,
    ((c, r) ∈ pellets m ↔
       (0 <= r < rows m ∧ 0 <= c < cols m) ∧ cell_value lay r c = Some 2) ∧
    ((c, r) ∈ power_pellets m ↔
       (0 <= r < rows m ∧ 0 <= c < cols m) ∧ cell_value lay r c = Some 3).
Proof.
  unfold Maze_init. destruct (py_get lay 0) as [row0 |]; simpl; [| done].
  destruct (scan_pellets _ _ _) as [st |] eqn:Hscan; simpl; [| done].
  intros [= <-]. apply scan_pellets_spec in Hscan as (Ht & H1 & H2).
  unfold range in *. simpl. split; [done |]. intros c r.
  rewrite H1, H2. split; split.
  - intros (r' & c' & Hr'%elem_of_seqZ & Hc'%elem_of_seqZ & [= -> ->] & Hv).
    split; [lia | done].
  - intros [[Hr Hc] Hv]. exists r, c. rewrite !elem_of_seqZ. repeat split; (lia || done).
  - intros (r' & c' & Hr'%elem_of_seqZ & Hc'%elem_of_seqZ & [= -> ->] & Hv).
    split; [lia | done].
  - intros [[Hr Hc] Hv]. exists r, c. rewrite !elem_of_seqZ. repeat split; (lia || done).
Qed.

(** C10. The pellet set and the power-pellet set are disjoint in every state
    of a maze's lifetime.  Construction puts a cell into [pellets] exactly
    when its layout entry is 2 and into [power_pellets] exactly when it is 3,
    and a call of [eat_at] leaves at least one of the two sets as it was. *)
Theorem pellet_sets_disjoint lay m0 m :
  Maze_init lay = Some m0 → lifetime m0 m →
  (∀ c r,
     ((c, r) ∈ pellets m0 ↔
        (0 <= r < rows m0 ∧ 0 <= c < cols m0) ∧ cell_value lay r c = Some 2) ∧
     ((c, r) ∈ power_pellets m0 ↔
        (0 <= r < rows m0 ∧ 0 <= c < cols m0) ∧ cell_value lay r c = Some 3)) ∧
  pellets m ∩ power_pellets m = ∅ ∧
  ∀ cell s m', eat_at m cell = Some (s, m') →
    pellets m' ∩ power_pellets m' = ∅ ∧
    (pellets m' = pellets m ∨ power_pellets m' = power_pellets m).
Proof.
  intros Hinit Hlife.
  assert (∀ m1, maze_ok m1 → pellets m1 ∩ power_pellets m1 = ∅) as Hdisj.
  { intros m1 Hok1. apply set_eq. intros x. split; [| by intros ?%elem_of_empty].
    intros [H1 H2]%elem_of_intersection. exfalso. by eapply pellets_disjoint. }
  assert (maze_ok m) as Hok by (eapply lifetime_ok; eauto using Maze_init_ok).
  split; [by apply Maze_init_sets |]. split; [by apply Hdisj |].
  intros cell s m' Heat. split.
  - apply Hdisj. by apply (eat_at_ok m cell s m').
  - unfold eat_at in Heat. repeat case_decide.
    + destruct (layout_set _ _ _ _); simpl in Heat; [| done].
      injection Heat as <- <-. by right.
    + destruct (layout_set _ _ _ _); simpl in Heat; [| done].
      injection Heat as <- <-. by left.
    + injection Heat as <- <-. by left.
Qed.

Lemma pellet_sets_disjoint_witness :
  (∀ c r,
     ((c, r) ∈ pellets initial_maze ↔
        (0 <= r < rows initial_maze ∧ 0 <= c < cols initial_maze)
        ∧ cell_value maze_layout r c = Some 2) ∧
     ((c, r) ∈ power_pellets initial_maze ↔
        (0 <= r < rows initial_maze ∧ 0 <= c < cols initial_maze)
        ∧ cell_value maze_layout r c = Some 3)) ∧
  pellets maze_after_eat ∩ power_pellets maze_after_eat = ∅ ∧
  ∀ cell s m', eat_at maze_after_eat cell = Some (s, m') →
    pellets m' ∩ power_pellets m' = ∅ ∧
    (pellets m' = pellets maze_after_eat ∨ power_pellets m' = power_pellets maze_after_eat).
Proof.
  apply (pellet_sets_disjoint maze_layout initial_maze maze_after_eat).
  - vm_compute. reflexivity.
  - exact maze_after_eat_life.
Defined.

(** ** Floor division by the tile size *)

Lemma floordiv_bounds a :
  (inject_Z (floordiv a TILE_SIZE) * 64 <= a
   < inject_Z (floordiv a TILE_SIZE) * 64 + 64)%Q.
Proof.
  unfold floordiv.
  pose proof (Qfloor_le (a / inject_Z TILE_SIZE)) as H1.
  pose proof (Qlt_floor (a / inject_Z TILE_SIZE)) as H2.
  rewrite inject_Z_plus in H2.
  set (z := inject_Z (Qfloor (a / inject_Z TILE_SIZE))) in *.
  assert (a / inject_Z TILE_SIZE == a * (1 # 64))%Q as E by reflexivity.
  rewrite E in H1, H2. change (inject_Z 1) with 1%Q in H2. lra.
Qed.

(** From a strict bound between two injected integers to the integers. *)
Ltac to_Z H :=
  change 1%Q with (inject_Z 1) in H;
  rewrite <- ?inject_Z_plus in H;
  first [rewrite <- Zlt_Qlt in H | rewrite <- Zle_Qle in H].

Lemma floordiv_unique a z :
  (inject_Z z * 64 <= a < inject_Z z * 64 + 64)%Q → floordiv a TILE_SIZE = z.
Proof.
  intros [H1 H2]. pose proof (floordiv_bounds a) as [H3 H4].
  set (w := floordiv a TILE_SIZE) in *.
  assert (inject_Z w < inject_Z z + 1)%Q as A by lra.
  assert (inject_Z z < inject_Z w + 1)%Q as B by lra.
  to_Z A. to_Z B. lia.
Qed.

Lemma floordiv_comp a b : (a == b)%Q → floordiv a TILE_SIZE = floordiv b TILE_SIZE.
Proof.
  intros E. apply floordiv_unique. rewrite E. apply floordiv_bounds.
Qed.

(** A point between two points at most one unit apart falls into the tile
    column (or row) of one of them. *)
Lemma floordiv_between lo b hi :
  (lo <= b)%Q → (b <= hi)%Q → (hi <= lo + 1)%Q →
  floordiv b TILE_SIZE = floordiv lo TILE_SIZE
  ∨ floordiv b TILE_SIZE = floordiv hi TILE_SIZE.
Proof.
  intros H1 H2 H3.
  pose proof (floordiv_bounds lo) as [L1 L2].
  pose proof (floordiv_bounds b) as [B1 B2].
  pose proof (floordiv_bounds hi) as [U1 U2].
  set (zl := floordiv lo TILE_SIZE) in *.
  set (zb := floordiv b TILE_SIZE) in *.
  set (zh := floordiv hi TILE_SIZE) in *.
  assert (inject_Z zl < inject_Z zb + 1)%Q as A by lra.
  assert (inject_Z zb < inject_Z zh + 1)%Q as B by lra.
  assert (inject_Z zh < inject_Z zl + 1 + 1)%Q as C by lra.
  to_Z A. to_Z B. to_Z C. lia.
Qed.

Lemma Qtrunc_frac_lt_1 q : (q - inject_Z (Qtrunc q) < 1)%Q.
Proof.
  destruct q as [n d]. unfold Qtrunc. simpl.
  pose proof (Z.quot_rem' n (Z.pos d)) as E.
  pose proof (Z.rem_bound_abs n (Z.pos d) ltac:(done)) as B.
  unfold Qlt, Qminus, Qplus, Qopp, inject_Z. simpl.
  set (k := Z.quot n (Z.pos d)) in *. set (r := Z.rem n (Z.pos d)) in *.
  rewrite Pos.mul_1_r. lia.
Qed.

Lemma Qltb_lt a b : Qltb a b = true ↔ (a < b)%Q.
Proof.
  unfold Qltb. rewrite negb_true_iff. split.
  - intros H. apply Qnot_le_lt. intros Hle. apply Qle_bool_iff in Hle. congruence.
  - intros H. destruct (Qle_bool b a) eqn:E; [| done].
    apply Qle_bool_iff in E. exfalso. by apply (Qlt_not_le a b).
Qed.

(** ** Wall-constrained movement *)

(** Replaces the next call of [is_wall] in the goal by its result. *)
Ltac run_is_wall Hok :=
  match goal with
  | |- context [is_wall ?m ?c] =>
      let w := fresh "w" in
      let E := fresh "E" in
      destruct (is_wall_total m c Hok) as [w E]; rewrite E; simpl
  end.

Lemma can_move_dir_total m a d : maze_ok m → is_Some (can_move_dir m a d).
Proof.
  intros Hok. unfold can_move_dir. destruct (pos a) as [x y].
  destruct (is_centered (x, y)); simpl; repeat run_is_wall Hok;
    repeat match goal with w : bool |- _ => destruct w end; by eexists.
Qed.

Lemma can_move_dir_true m a d :
  can_move_dir m a d = Some true →
  off_wall m ((pos a).1 + inject_Z d.1, (pos a).2 + inject_Z d.2)%Q.
Proof.
  unfold can_move_dir, off_wall. destruct (pos a) as [x y]. simpl.
  destruct (if is_centered (x, y) then _ else _) as [[] |]; simpl; try done.
  destruct (is_wall m _) as [[] |]; simpl; done.
Qed.

Lemma move_steps_off_wall m n : ∀ a,
  maze_ok m → off_wall m (pos a) →
  ∃ a', move_steps m n a = Some a' ∧ off_wall m (pos a')
        ∧ dir a' = dir a ∧ speed a' = speed a.
Proof.
  induction n as [| n IH]; intros a Hok Hoff; simpl.
  - by exists a.
  - destruct (can_move_dir_total m a (dir a) Hok) as [ok Hcan]. rewrite Hcan. simpl.
    destruct ok; [| by exists a].
    apply can_move_dir_true in Hcan.
    destruct (IH (set_pos a ((pos a).1 + inject_Z (dir a).1,
                             (pos a).2 + inject_Z (dir a).2)%Q) Hok Hcan)
      as (a' & Hrun & Hoff' & Hd & Hs).
    by exists a'.
Qed.

Lemma coord_step a (k : Z) f :
  k = -1 ∨ k = 0 ∨ k = 1 → (0 < f)%Q → (f < 1)%Q →
  floordiv (a + inject_Z k * f) TILE_SIZE = floordiv a TILE_SIZE
  ∨ floordiv (a + inject_Z k * f) TILE_SIZE = floordiv (a + inject_Z k) TILE_SIZE.
Proof.
  intros [-> | [-> | ->]] H0 H1; unfold inject_Z.
  - destruct (floordiv_between (a + (-1 # 1)) (a + (-1 # 1) * f) a)%Q; [lra .. | |];
      [by right | by left].
  - left. apply floordiv_comp. lra.
  - apply (floordiv_between a (a + (1 # 1) * f) (a + (1 # 1)))%Q; lra.
Qed.

Lemma coord_still a f :
  floordiv (a + inject_Z 0 * f) TILE_SIZE = floordiv a TILE_SIZE
  ∧ floordiv (a + inject_Z 0) TILE_SIZE = floordiv a TILE_SIZE.
Proof. split; apply floordiv_comp; unfold inject_Z; lra. Qed.

(** A fraction of a unit step ends in the cell of the start or in the cell
    of the full unit step. *)
Lemma frac_step_cell (p : Pos) (d : Dir) f :
  legal_dir d → (0 < f)%Q → (f < 1)%Q →
  let p' := (p.1 + inject_Z d.1 * f, p.2 + inject_Z d.2 * f)%Q in
  pixel_to_grid p' = pixel_to_grid p
  ∨ pixel_to_grid p' = pixel_to_grid (p.1 + inject_Z d.1, p.2 + inject_Z d.2)%Q.
Proof.
  intros Hd H0 H1. destruct p as [x y]. destruct d as [dx dy]. simpl.
  assert (∀ k, floordiv (y + inject_Z k * f - inject_Z UI_HEIGHT) TILE_SIZE
               = floordiv (y - inject_Z UI_HEIGHT + inject_Z k * f) TILE_SIZE) as Ey.
  { intros k. apply floordiv_comp. lra. }
  assert (∀ k, floordiv (y + inject_Z k - inject_Z UI_HEIGHT) TILE_SIZE
               = floordiv (y - inject_Z UI_HEIGHT + inject_Z k) TILE_SIZE) as Ey'.
  { intros k. apply floordiv_comp. lra. }
  rewrite Ey, Ey'.
  assert ((dx = 0 ∧ (dy = -1 ∨ dy = 0 ∨ dy = 1)) ∨ (dy = 0 ∧ (dx = -1 ∨ dx = 0 ∨ dx = 1)))
    as [[-> Hk] | [-> Hk]].
  { unfold legal_dir, UP, DOWN, LEFT, RIGHT, STOP in Hd.
    destruct Hd as [E | [E | [E | [E | E]]]]; injection E as -> ->; lia. }
  - destruct (coord_still x f) as [-> ->].
    destruct (coord_step (y - inject_Z UI_HEIGHT) dy f Hk H0 H1) as [-> | ->]; auto.
  - destruct (coord_still (y - inject_Z UI_HEIGHT) f) as [-> ->].
    destruct (coord_step x dx f Hk H0 H1) as [-> | ->]; auto.
Qed.

Lemma Actor_move_off_wall m a :
  maze_ok m → legal_dir (dir a) → off_wall m (pos a) →
  ∃ a', Actor_move m a = Some a' ∧ off_wall m (pos a')
        ∧ dir a' = dir a ∧ speed a' = speed a.
Proof.
  intros Hok Hd Hoff. unfold Actor_move.
  case_bool_decide; [by exists a |].
  destruct (move_steps_off_wall m (Z.to_nat (Qtrunc (speed a))) a Hok Hoff)
    as (a1 & -> & Hoff1 & Hd1 & Hs1). simpl.
  destruct (Qltb 0 _) eqn:Hfrac; [| by exists a1].
  destruct (can_move_dir_total m a1 (dir a1) Hok) as [ok Hcan]. rewrite Hcan. simpl.
  destruct ok; [| by exists a1].
  apply can_move_dir_true in Hcan. eexists. split; [done |].
  split; [| done]. simpl.
  apply Qltb_lt in Hfrac. rewrite <- Hd1 in Hd.
  destruct (frac_step_cell (pos a1) (dir a1) _ Hd Hfrac (Qtrunc_frac_lt_1 (speed a1)))
    as [E | E]; unfold off_wall; rewrite E; done.
Qed.

(** ** The actors stay off the walls *)

Lemma legal_dir_opposite d : legal_dir d → legal_dir (opposite d).
Proof.
  unfold legal_dir. intros [-> | [-> | [-> | [-> | ->]]]]; compute; auto.
Qed.

Lemma legal_dir_ALL d : d ∈ ALL_DIRS → legal_dir d.
Proof.
  unfold ALL_DIRS, legal_dir. rewrite !elem_of_cons, elem_of_nil. intuition.
Qed.

Lemma pixel_to_grid_to_pixel cell : pixel_to_grid (grid_to_pixel cell) = cell.
Proof.
  destruct cell as [c r]. unfold pixel_to_grid, grid_to_pixel.
  assert (∀ k, inject_Z (k * TILE_SIZE) == inject_Z k * 64)%Q as E.
  { intros k. by rewrite inject_Z_mult. }
  change (inject_Z TILE_SIZE / 2)%Q with (64 # 2).
  change (inject_Z UI_HEIGHT) with (64 # 1).
  f_equal; apply floordiv_unique; rewrite E; lra.
Qed.

Lemma random_choice_total {A} (l : list A) rng :
  l ≠ [] → ∃ x, random_choice l rng = Some (x, tl rng) ∧ x ∈ l.
Proof.
  intros Hne. unfold random_choice.
  destruct (lookup_lt_is_Some_2 l (hd 0%nat rng `mod` length l)%nat) as [x Hx].
  { apply Nat.mod_upper_bound. by destruct l. }
  rewrite Hx. simpl. exists x. split; [done |]. by eapply list_elem_of_lookup_2.
Qed.

Lemma py_remove_elem {A} `{EqDecision A} (x y : A) l :
  y ∈ py_remove x l → y ∈ l.
Proof.
  induction l as [| z l IH]; simpl; [done |].
  case_decide.
  - intros Hy. apply elem_of_cons. auto.
  - intros [-> | Hy]%elem_of_cons; apply elem_of_cons; auto.
Qed.

Lemma py_remove_nonempty {A} `{EqDecision A} (x : A) l :
  (1 < length l)%nat → py_remove x l ≠ [].
Proof.
  destruct l as [| y [| z l]]; simpl; try lia. intros _. by repeat case_decide.
Qed.

Lemma available_loop_spec m a dirs : ∀ valid,
  maze_ok m →
  ∃ v, available_loop m a dirs valid = Some v ∧ ∀ d, d ∈ v → d ∈ valid ∨ d ∈ dirs.
Proof.
  induction dirs as [| d0 dirs IH]; intros valid Hok; simpl.
  - exists valid. auto.
  - run_is_wall Hok.
    destruct (if w then _ else _) eqn:Hbr.
    2: { exfalso. destruct w; [| destruct (_ && _)];
           [destruct (IH valid Hok) as (v & Hv & _) |
            destruct (IH valid Hok) as (v & Hv & _) |
            destruct (IH (valid ++ [d0]) Hok) as (v & Hv & _)]; congruence. }
    eexists. split; [done |]. intros d Hd.
    destruct w; [| destruct (_ && _)].
    + destruct (IH valid Hok) as (v & Hv & Hin). rewrite Hv in Hbr.
      injection Hbr as <-. rewrite elem_of_cons. destruct (Hin d Hd); auto.
    + destruct (IH valid Hok) as (v & Hv & Hin). rewrite Hv in Hbr.
      injection Hbr as <-. rewrite elem_of_cons. destruct (Hin d Hd); auto.
    + destruct (IH (valid ++ [d0]) Hok) as (v & Hv & Hin). rewrite Hv in Hbr.
      injection Hbr as <-. rewrite elem_of_cons.
      destruct (Hin d Hd) as [[? | ?%list_elem_of_singleton]%elem_of_app | ?]; auto.
Qed.

Lemma available_dirs_spec m a :
  maze_ok m → legal_dir (dir a) →
  ∃ v, available_dirs m a = Some v ∧ v ≠ [] ∧ ∀ d, d ∈ v → legal_dir d.
Proof.
  intros Hok Hd. unfold available_dirs.
  destruct (available_loop_spec m a ALL_DIRS [] Hok) as (v & -> & Hin). simpl.
  eexists. split; [done |]. destruct v as [| d0 v].
  - split; [done |]. intros d ->%list_elem_of_singleton. by apply legal_dir_opposite.
  - split; [done |]. intros d Hdv. apply legal_dir_ALL.
    destruct (Hin d Hdv) as [?%elem_of_nil | ?]; done.
Qed.

Lemma Actor_move_ok m a :
  maze_ok m → actor_ok m a → ∃ a', Actor_move m a = Some a' ∧ actor_ok m a'.
Proof.
  intros Hok [Hd Hoff].
  destruct (Actor_move_off_wall m a Hok Hd Hoff) as (a' & Hmv & Hoff' & Hd' & _).
  exists a'. split; [done |]. split; [by rewrite Hd' | done].
Qed.

Lemma Pacman_update_ok m p :
  maze_ok m → actor_ok m (p_actor p) → legal_dir (pending_dir p) →
  ∃ p', Pacman_update m p = Some p' ∧ actor_ok m (p_actor p')
        ∧ pending_dir p' = pending_dir p.
Proof.
  intros Hok Ha Hp. unfold Pacman_update.
  match goal with |- context [mbind _ ?t] =>
    assert (∃ a, t = Some a ∧ actor_ok m a) as (a & -> & Ha1) end.
  { destruct (_ && _); [| by exists (p_actor p)].
    run_is_wall Hok. destruct w; [by exists (p_actor p) |].
    eexists. split; [done |]. destruct Ha as [_ Hoff]. by split. }
  simpl. destruct (Actor_move_ok m a Hok Ha1) as (a' & -> & Ha'). simpl.
  by eexists.
Qed.

Lemma Ghost_update_ok m gh rng :
  maze_ok m → ghost_ok m gh →
  ∃ gh' rng', Ghost_update m gh rng = Some (gh', rng') ∧ ghost_ok m gh'
    ∧ alive gh' = alive gh ∧ frightened gh' = frightened gh
    ∧ respawn_cell gh' = respawn_cell gh.
Proof.
  intros Hok [[Hd Hoff] Hsp]. unfold Ghost_update.
  match goal with |- context [mbind _ ?t] =>
    assert (∃ a r, t = Some (a, r) ∧ actor_ok m a) as (a & r & -> & Ha1) end.
  { destruct (is_centered _); [| exists (g_actor gh), rng; by repeat split].
    destruct (available_dirs_spec m (g_actor gh) Hok Hd) as (v & -> & Hne & Hleg). simpl.
    match goal with |- context [random_choice ?l rng] =>
      destruct (random_choice_total l rng) as (d & -> & Hin) end.
    { destruct (_ && _) eqn:Hc; [| done].
      apply andb_prop in Hc as [Hlen%bool_decide_eq_true _].
      by apply py_remove_nonempty. }
    simpl. eexists _, _. split; [done |]. split; [| done]. simpl.
    destruct (_ && _); [apply py_remove_elem in Hin |]; auto. }
  simpl. destruct (Actor_move_ok m a Hok Ha1) as (a' & -> & Ha'). simpl.
  eexists _, _. split; [done |]. by split.
Qed.

Lemma reset_to_spawn_ok m gh rng :
  is_wall m (respawn_cell gh) = Some false →
  ∃ gh', reset_to_spawn gh rng = Some (gh', tl rng) ∧ ghost_ok m gh'
    ∧ pos (g_actor gh') = grid_to_pixel (respawn_cell gh)
    ∧ alive gh' = true ∧ frightened gh' = false
    ∧ respawn_cell gh' = respawn_cell gh.
Proof.
  intros Hsp. unfold reset_to_spawn.
  destruct (random_choice_total ALL_DIRS rng) as (d & -> & Hin); [done |]. simpl.
  eexists. split; [done |]. repeat split; simpl; try done.
  - by apply legal_dir_ALL.
  - unfold off_wall. by rewrite pixel_to_grid_to_pixel.
Qed.

Lemma each_ghost_Forall (P Q : Ghost → Prop) f gs : ∀ rng,
  (∀ gh r, P gh → ∃ gh' r', f gh r = Some (gh', r') ∧ Q gh') →
  Forall P gs →
  ∃ gs' rng', each_ghost f gs rng = Some (gs', rng') ∧ Forall Q gs'.
Proof.
  intros rng Hf HP. revert rng.
  induction HP as [| gh gs Hgh _ IH]; intros rng; simpl.
  - by exists [], rng.
  - destruct (Hf gh rng Hgh) as (gh' & r1 & -> & HQ). simpl.
    destruct (IH r1) as (gs' & r2 & -> & HQs). simpl.
    exists (gh' :: gs'), r2. split; [done |]. by constructor.
Qed.

Lemma ghost_ok_flags m gh fr al :
  ghost_ok m gh → ghost_ok m (mkGhost (g_actor gh) fr (respawn_cell gh) al).
Proof. done. Qed.

Lemma ghost_ok_ext m m' gh :
  (∀ c, is_wall m' c = is_wall m c) → ghost_ok m gh → ghost_ok m' gh.
Proof.
  intros Hw [[Hd Hoff] Hsp]. unfold ghost_ok, actor_ok, off_wall in *.
  rewrite !Hw. done.
Qed.

Lemma collision_loop_ok m ppos gs : ∀ sc tm,
  Forall (ghost_ok m) gs →
  Forall (ghost_ok m) (collision_loop ppos gs sc tm).1.1.1.
Proof.
  induction gs as [| gh gs IH]; intros sc tm Hgs; simpl; [done |].
  apply Forall_cons in Hgs as [Hgh Hgs].
  destruct (negb (alive gh)).
  - specialize (IH sc tm Hgs). destruct (collision_loop ppos gs sc tm) as [[[r ?] ?] ?].
    simpl in *. by constructor.
  - destruct (within_reach _ _).
    + destruct (frightened gh).
      * specialize (IH (sc + GHOST_EAT_SCORE) (Some RESPAWN_DELAY_MS) Hgs).
        destruct (collision_loop ppos gs _ _) as [[[r ?] ?] ?].
        simpl in *. constructor; [by apply ghost_ok_flags | done].
      * simpl. by constructor.
    + specialize (IH sc tm Hgs). destruct (collision_loop ppos gs sc tm) as [[[r ?] ?] ?].
      simpl in *. by constructor.
Qed.

Lemma ghosts_ok_fmap m (f : Ghost → Ghost) gs :
  (∀ gh, ghost_ok m gh → ghost_ok m (f gh)) →
  Forall (ghost_ok m) gs → Forall (ghost_ok m) (f <$> gs).
Proof. intros Hf Hgs. apply Forall_fmap. eapply Forall_impl; [done | apply Hf]. Qed.

Lemma set_power_mode_ok g now : game_ok g → game_ok (set_power_mode g now).
Proof.
  intros [Hm Hp Hpd Hs Hg]. split; simpl; try done.
  apply ghosts_ok_fmap; [| done]. intros gh Hgh. by destruct (alive gh).
Qed.

Lemma update_power_mode_ok g now : game_ok g → game_ok (update_power_mode g now).
Proof.
  intros Hok. unfold update_power_mode. destruct (_ && _); [| done].
  destruct Hok as [Hm Hp Hpd Hs Hg]. split; simpl; try done.
  by apply ghosts_ok_fmap.
Qed.

Lemma check_win_ok g : game_ok g → game_ok (check_win g).
Proof.
  intros Hok. unfold check_win. case_bool_decide; [| done].
  by destruct Hok as [Hm Hp Hpd Hs Hg].
Qed.

Lemma eat_at_total m cell : maze_ok m → ∃ s m', eat_at m cell = Some (s, m').
Proof.
  intros Hok. destruct (decide (cell ∈ pellets m)) as [Hp | Hp].
  - destruct (eat_at_pellet m cell Hok Hp) as (m1 & Heat & _). eauto.
  - destruct (decide (cell ∈ power_pellets m)) as [Hpp | Hpp].
    + destruct (eat_at_power m cell Hok Hpp) as (m1 & Heat & _). eauto.
    + rewrite eat_at_empty by done. eauto.
Qed.

Lemma eat_logic_ok g now : game_ok g → ∃ g', eat_logic g now = Some g' ∧ game_ok g'.
Proof.
  intros [Hm [Hpd Hpo] Hpn Hs Hg]. unfold eat_logic.
  destruct (eat_at_total (maze g) (current_cell (p_actor (pacman g))) Hm)
    as (s & m' & Heat).
  rewrite Heat. simpl.
  destruct (eat_at_ok _ _ _ _ Hm Heat) as (Hm' & _ & _ & Hw).
  assert (∀ sc, game_ok (mkGame m' (pacman g) (ghosts g) sc (lives g)
                           (power_expires_at g) (win g) (game_over g)
                           (respawn_timer g))) as Hok'.
  { intros sc. split; simpl; try done.
    - split; [done |]. unfold off_wall. by rewrite Hw.
    - by rewrite Hw.
    - eapply Forall_impl; [done |]. intros gh. by apply ghost_ok_ext. }
  repeat case_bool_decide; eexists; (split; [done |]); auto using set_power_mode_ok.
Qed.

Lemma reset_round_ok g rng :
  maze_ok (maze g) → is_wall (maze g) PACMAN_SPAWN = Some false →
  Forall (ghost_ok (maze g)) (ghosts g) →
  ∃ g' rng', reset_round g rng = Some (g', rng') ∧ game_ok g'.
Proof.
  intros Hm Hs Hg. unfold reset_round.
  destruct (each_ghost_Forall (ghost_ok (maze g)) (ghost_ok (maze g))
              reset_to_spawn (ghosts g) rng) as (gs & rng' & -> & Hgs); [| done |].
  { intros gh r [_ Hsp]. destruct (reset_to_spawn_ok (maze g) gh r Hsp) as (gh' & ? & ? & _).
    eauto. }
  simpl. eexists _, _. split; [done |]. split; simpl; try done.
  - split; [unfold legal_dir; auto 6 |].
    unfold off_wall. change (pos _) with (grid_to_pixel PACMAN_SPAWN).
    by rewrite pixel_to_grid_to_pixel.
  - unfold legal_dir. auto 6.
Qed.

Lemma collision_logic_ok g rng :
  game_ok g → ∃ g' rng', collision_logic g rng = Some (g', rng') ∧ game_ok g'.
Proof.
  intros [Hm Hp Hpd Hs Hg]. unfold collision_logic.
  pose proof (collision_loop_ok (maze g) (pos (p_actor (pacman g))) (ghosts g)
                (score g) (respawn_timer g) Hg) as Hloop.
  destruct (collision_loop _ _ _ _) as [[[gs sc] tm] hit]. simpl in Hloop.
  destruct hit.
  - by apply reset_round_ok.
  - eexists _, _. split; [done |]. by split.
Qed.

Lemma update_tick_ok g rng now_pm now_eat :
  game_ok g →
  ∃ g' rng', update_tick g rng now_pm now_eat = Some (g', rng') ∧ game_ok g'.
Proof.
  intros Hok. unfold update_tick. destruct (game_over g); [by exists g, rng |].
  destruct Hok as [Hm Hp Hpd Hs Hg].
  destruct (Pacman_update_ok (maze g) (pacman g) Hm Hp Hpd) as (p & -> & Hp' & Hpd').
  simpl.
  destruct (each_ghost_Forall (ghost_ok (maze g)) (ghost_ok (maze g))
              (Ghost_update (maze g)) (ghosts g) rng) as (gs & rng1 & -> & Hgs);
    [| done |].
  { intros gh r Hgh.
    destruct (Ghost_update_ok (maze g) gh r Hm Hgh) as (gh' & r' & ? & ? & _). eauto. }
  simpl.
  match goal with |- context [update_power_mode ?g1 now_pm] =>
    assert (game_ok g1) as Hok1 by (split; simpl; [done .. | by rewrite Hpd' | done | done])
  end.
  apply (update_power_mode_ok _ now_pm) in Hok1.
  destruct (eat_logic_ok _ now_eat Hok1) as (g3 & -> & Hok3). simpl.
  destruct (collision_logic_ok g3 rng1 Hok3) as (g4 & rng2 & -> & Hok4). simpl.
  eexists _, _. split; [done |]. by apply check_win_ok.
Qed.

Lemma Ghost_init_ok cell rng :
  is_wall initial_maze cell = Some false →
  ∃ gh, Ghost_init cell rng = Some (gh, tl rng) ∧ ghost_ok initial_maze gh.
Proof.
  intros Hc. unfold Ghost_init.
  destruct (random_choice_total ALL_DIRS rng) as (d & -> & Hin); [done |]. simpl.
  eexists. split; [done |]. split; [split |]; simpl; [by apply legal_dir_ALL | | done].
  unfold off_wall. by rewrite pixel_to_grid_to_pixel.
Qed.

Lemma Game_init_ok tm rng g rng' : Game_init tm rng = Some (g, rng') → game_ok g.
Proof.
  unfold Game_init. rewrite initial_maze_built. simpl.
  destruct (Ghost_init_ok (3, 1) rng) as (g1 & -> & Hg1); [by vm_compute |]. simpl.
  destruct (Ghost_init_ok (3, 5) (tl rng)) as (g2 & -> & Hg2); [by vm_compute |]. simpl.
  intros [= <- <-]. split; simpl.
  - apply initial_maze_ok.
  - split; [unfold legal_dir; auto 6 |].
    unfold off_wall. change (pos _) with (grid_to_pixel PACMAN_SPAWN).
    rewrite pixel_to_grid_to_pixel. by vm_compute.
  - unfold legal_dir. auto 6.
  - by vm_compute.
  - apply Forall_cons. split; [done |]. apply Forall_cons. split; [done | constructor].
Qed.

Lemma respawn_event_ok g rng :
  game_ok g → ∃ g' rng', respawn_event g rng = Some (g', rng') ∧ game_ok g'.
Proof.
  intros [Hm Hp Hpd Hs Hg]. unfold respawn_event.
  match goal with |- context [each_ghost ?f _ _] =>
    destruct (each_ghost_Forall (ghost_ok (maze g)) (ghost_ok (maze g)) f (ghosts g) rng)
      as (gs & rng' & -> & Hgs); [| done |] end.
  { intros gh r Hgh. destruct (alive gh); [by eauto |].
    destruct Hgh as [_ Hsp].
    destruct (reset_to_spawn_ok (maze g) gh r Hsp) as (gh' & ? & ? & _). eauto. }
  simpl. eexists _, _. split; [done |]. by split.
Qed.

(** ** The runs of the game *)

Lemma game_ok_off_walls g : game_ok g → actors_off_walls g.
Proof.
  intros [Hm [_ Hp] Hpd Hs Hg]. split; [done |].
  eapply Forall_impl; [done |]. by intros gh [[_ ?] _].
Qed.

Lemma run_state_ok s : run_state s → game_ok s.1.
Proof.
  induction 1 as [rng [g rng'] Hinit | s s' _ IH Hstep].
  - by eapply Game_init_ok.
  - destruct Hstep as [g rng d Hgo Hd | g rng [g' rng'] Hgo Hinit
                      | g rng [g' rng'] Hev | g rng n1 n2 [g' rng'] Htick]; simpl in *.
    + destruct IH as [Hm Hp Hpd Hs Hg]. split; simpl; try done. by apply legal_dir_ALL.
    + by eapply Game_init_ok.
    + destruct (respawn_event_ok g rng IH) as (g1 & r1 & E & Hok1). by simplify_eq.
    + destruct (update_tick_ok g rng n1 n2 IH) as (g1 & r1 & E & Hok1). by simplify_eq.
Qed.

(** C3. A wall-constrained move that starts on a non-wall cell ends on a
    non-wall cell: for a maze in any state of its lifetime and an actor with
    one of the five directions whose position resolves to a non-wall cell,
    [move] returns, and the position it leaves resolves to a non-wall cell.
    Hence in every state of every run of the game the Player and all
    Adversaries are on non-wall cells, and the updates of the next tick
    return a state in which they are again. *)
Theorem move_stays_off_walls :
  (∀ lay m0 m a,
     Maze_init lay = Some m0 → lifetime m0 m →
     legal_dir (dir a) → off_wall m (pos a) →
     ∃ a', Actor_move m a = Some a' ∧ off_wall m (pos a')) ∧
  (∀ s, run_state s →
     actors_off_walls s.1 ∧
     ∀ now_pm now_eat, ∃ s',
       update_tick s.1 s.2 now_pm now_eat = Some s' ∧ actors_off_walls s'.1).
Proof.
  split.
  - intros lay m0 m a Hinit Hlife Hd Hoff.
    assert (maze_ok m) as Hok by (eapply lifetime_ok; eauto using Maze_init_ok).
    destruct (Actor_move_off_wall m a Hok Hd Hoff) as (a' & Hmv & Hoff' & _). eauto.
  - intros s Hrun. pose proof (run_state_ok s Hrun) as Hok.
    split; [by apply game_ok_off_walls |]. intros n1 n2.
    destruct (update_tick_ok s.1 s.2 n1 n2 Hok) as (g' & rng' & E & Hok').
    exists (g', rng'). split; [done |]. by apply game_ok_off_walls.
Qed.

Lemma move_stays_off_walls_witness :
  ∃ a', Actor_move maze_after_eat (mkActor (grid_to_pixel (3, 1)) LEFT GHOST_SPEED)
          = Some a'
        ∧ off_wall maze_after_eat (pos a').
Proof.
  apply (proj1 move_stays_off_walls maze_layout initial_maze maze_after_eat
           (mkActor (grid_to_pixel (3, 1)) LEFT GHOST_SPEED)).
  - vm_compute. reflexivity.
  - exact maze_after_eat_life.
  - right. right. left. reflexivity.
  - vm_compute. reflexivity.
Defined.

(** ** Centering *)

Lemma pymod_bounds a : (0 <= pymod a TILE_SIZE < 64)%Q.
Proof.
  unfold pymod. pose proof (floordiv_bounds a) as [H1 H2].
  change (inject_Z TILE_SIZE) with (64 # 1). lra.
Qed.

(** [(a - 32) % 64 < 1/2] says that [a] is at, or less than half a unit
    past, the middle of its tile. *)
Lemma pymod_half a :
  (pymod (a - 32) TILE_SIZE < 1 # 2)%Q ↔
  (0 <= a - (inject_Z (floordiv a TILE_SIZE * TILE_SIZE) + 32) < 1 # 2)%Q.
Proof.
  unfold pymod. rewrite inject_Z_mult. change (inject_Z TILE_SIZE) with (64 # 1).
  pose proof (floordiv_bounds (a - 32)) as [H1 H2].
  pose proof (floordiv_bounds a) as [H3 H4].
  split.
  - intros H. assert (floordiv a TILE_SIZE = floordiv (a - 32) TILE_SIZE) as E.
    { apply floordiv_unique. lra. }
    rewrite E. lra.
  - intros [Ha Hb]. assert (floordiv (a - 32) TILE_SIZE = floordiv a TILE_SIZE) as E.
    { apply floordiv_unique. lra. }
    rewrite E. lra.
Qed.

Lemma Qltb_abs_pymod a :
  Qltb (Qabs (pymod a TILE_SIZE)) (1 # 2) = true ↔ (pymod a TILE_SIZE < 1 # 2)%Q.
Proof.
  rewrite Qltb_lt. pose proof (pymod_bounds a) as [H0 _].
  by rewrite (Qabs_pos _ H0).
Qed.

(** What [is_centered] computes: the position is at, or less than half a unit
    past (to the right of, below), the center of its cell on both axes. *)
Lemma is_centered_iff p :
  is_centered p = true ↔
  (0 <= (center_offset p).1 < 1 # 2)%Q ∧ (0 <= (center_offset p).2 < 1 # 2)%Q.
Proof.
  destruct p as [x y]. unfold is_centered, center_offset, pixel_to_grid, grid_to_pixel.
  cbn [fst snd].
  change (inject_Z TILE_SIZE / 2)%Q with (64 # 2).
  change (inject_Z UI_HEIGHT) with (64 # 1).
  rewrite andb_true_iff, !Qltb_abs_pymod.
  assert (pymod (x - (64 # 2)) TILE_SIZE == pymod (x - 32) TILE_SIZE)%Q as Ex.
  { unfold pymod. rewrite (floordiv_comp (x - (64 # 2)) (x - 32)) by lra. lra. }
  assert (pymod (y - (64 # 1) - (64 # 2)) TILE_SIZE
          == pymod (y - (64 # 1) - 32) TILE_SIZE)%Q as Ey.
  { unfold pymod.
    rewrite (floordiv_comp (y - (64 # 1) - (64 # 2)) (y - (64 # 1) - 32)) by lra. lra. }
  rewrite Ex, Ey, !pymod_half.
  split; intros [[A1 A2] [B1 B2]]; (split; split; lra).
Qed.

(** C4 (failing input). The position 0.3 units left of the center
    (96, 160) of cell (1, 1) has offset (-0.3, 0) from the center of its
    cell, within the tolerance of 0.5 on both axes, and [is_centered]
    answers [False]. *)
Theorem is_centered_before_center :
  let p : Pos := ((96 # 1) - (3 # 10), 160 # 1)%Q in
  pixel_to_grid p = (1, 1)
  ∧ ((center_offset p).1 == - (3 # 10))%Q ∧ ((center_offset p).2 == 0)%Q
  ∧ (Qabs (center_offset p).1 < 1 # 2)%Q ∧ (Qabs (center_offset p).2 < 1 # 2)%Q
  ∧ is_centered p = false.
Proof. vm_compute. repeat split; congruence. Qed.

(** ** Round reset and collisions *)

Lemma reset_to_spawn_respawned gh rng :
  ∃ gh', reset_to_spawn gh rng = Some (gh', tl rng) ∧ respawned gh gh'.
Proof.
  unfold reset_to_spawn.
  destruct (random_choice_total ALL_DIRS rng) as (d & -> & _); [done |]. simpl.
  eexists. split; [done |]. repeat split. unfold current_cell. simpl.
  apply pixel_to_grid_to_pixel.
Qed.

Lemma each_ghost_Forall2 (R : Ghost → Ghost → Prop) f gs : ∀ rng,
  (∀ gh r, ∃ gh', f gh r = Some (gh', tl r) ∧ R gh gh') →
  ∃ gs', each_ghost f gs rng = Some (gs', drop (length gs) rng) ∧ Forall2 R gs gs'.
Proof.
  intros rng Hf. revert rng. induction gs as [| gh gs IH]; intros rng; simpl.
  - by exists [].
  - destruct (Hf gh rng) as (gh' & -> & HR). simpl.
    destruct (IH (tl rng)) as (gs' & -> & HRs). simpl.
    exists (gh' :: gs'). split; [| by constructor].
    destruct rng as [| k rng]; simpl; [by rewrite drop_nil | done].
Qed.

Lemma reset_round_spec g rng :
  ∃ gs', Forall2 respawned (ghosts g) gs' ∧
    reset_round g rng =
      Some (mkGame (maze g) (Pacman_init PACMAN_SPAWN) gs' (score g) (lives g) 0
              (win g) (game_over g) (respawn_timer g),
            drop (length (ghosts g)) rng).
Proof.
  unfold reset_round.
  destruct (each_ghost_Forall2 respawned reset_to_spawn (ghosts g) rng
              reset_to_spawn_respawned) as (gs' & -> & HR).
  by exists gs'.
Qed.

(** C9. A round reset returns, puts the Player on its spawn cell (3, 3) with
    no direction, puts every Adversary on its own spawn cell, alive and not
    frightened, and sets the power-mode expiry to 0 (inactive).  The score,
    the lives, the maze with its pellet set and its power-pellet set, and the
    win and game-over flags are as before. *)
Theorem reset_round_frame g rng :
  ∃ g' rng',
    reset_round g rng = Some (g', rng')
    ∧ pacman g' = Pacman_init PACMAN_SPAWN
    ∧ current_cell (p_actor (pacman g')) = PACMAN_SPAWN
    ∧ Forall2 respawned (ghosts g) (ghosts g')
    ∧ power_expires_at g' = 0
    ∧ score g' = score g
    ∧ lives g' = lives g
    ∧ maze g' = maze g
    ∧ pellets (maze g') = pellets (maze g)
    ∧ power_pellets (maze g') = power_pellets (maze g)
    ∧ win g' = win g ∧ game_over g' = game_over g.
Proof.
  destruct (reset_round_spec g rng) as (gs' & HR & ->).
  eexists _, _. split; [done |]. simpl. by repeat split.
Qed.

Lemma collision_loop_same_place ppos gs : ∀ sc tm,
  Forall2 same_place gs (collision_loop ppos gs sc tm).1.1.1.
Proof.
  induction gs as [| gh gs IH]; intros sc tm; simpl; [constructor |].
  destruct (negb (alive gh)); [| destruct (within_reach _ _); [destruct (frightened gh) |]].
  - specialize (IH sc tm). destruct (collision_loop ppos gs sc tm) as [[[r ?] ?] ?].
    by constructor.
  - specialize (IH (sc + GHOST_EAT_SCORE) (Some RESPAWN_DELAY_MS)).
    destruct (collision_loop ppos gs _ _) as [[[r ?] ?] ?]. by constructor.
  - simpl. constructor; [done |]. by apply Forall_Forall2_diag, Forall_true.
  - specialize (IH sc tm). destruct (collision_loop ppos gs sc tm) as [[[r ?] ?] ?].
    by constructor.
Qed.

Lemma collision_loop_hit ppos gs : ∀ sc tm,
  (collision_loop ppos gs sc tm).2 = existsb (lethal ppos) gs.
Proof.
  induction gs as [| gh gs IH]; intros sc tm; simpl; [done |]. unfold lethal at 1.
  destruct (alive gh); simpl.
  - destruct (within_reach _ _); [destruct (frightened gh) |]; simpl.
    + specialize (IH (sc + GHOST_EAT_SCORE) (Some RESPAWN_DELAY_MS)).
      by destruct (collision_loop ppos gs _ _) as [[[r ?] ?] ?].
    + done.
    + rewrite andb_false_r. simpl. specialize (IH sc tm).
      by destruct (collision_loop ppos gs sc tm) as [[[r ?] ?] ?].
  - specialize (IH sc tm). by destruct (collision_loop ppos gs sc tm) as [[[r ?] ?] ?].
Qed.

Lemma respawned_after_loop gs gs1 gs2 :
  Forall2 same_place gs gs1 → Forall2 respawned gs1 gs2 → Forall2 respawned gs gs2.
Proof.
  intros H1. revert gs2. induction H1 as [| gh gh1 gs gs1 [_ Hsp] _ IH]; intros gs2 H2.
  - by inversion H2.
  - inversion H2 as [| ? gh2 ? gs2' Hr Hrs]; subst. constructor; [| by apply IH].
    unfold respawned in *. by rewrite <- Hsp.
Qed.

(** The collision that takes a life: the life is taken, the game ends if no
    life is left, and the round is reset in either case. *)
Lemma collision_logic_hit g rng :
  existsb (lethal (pos (p_actor (pacman g)))) (ghosts g) = true →
  ∃ g' rng',
    collision_logic g rng = Some (g', rng')
    ∧ lives g' = lives g - 1
    ∧ game_over g' = (if bool_decide (lives g - 1 <= 0) then true else game_over g)
    ∧ pacman g' = Pacman_init PACMAN_SPAWN
    ∧ Forall2 respawned (ghosts g) (ghosts g')
    ∧ power_expires_at g' = 0
    ∧ maze g' = maze g ∧ win g' = win g.
Proof.
  intros Hhit. unfold collision_logic.
  pose proof (collision_loop_hit (pos (p_actor (pacman g))) (ghosts g) (score g)
                (respawn_timer g)) as Hh.
  pose proof (collision_loop_same_place (pos (p_actor (pacman g))) (ghosts g) (score g)
                (respawn_timer g)) as Hsame.
  destruct (collision_loop _ _ _ _) as [[[gs sc] tm] hit]. simpl in Hh, Hsame.
  rewrite Hhit in Hh. subst hit.
  match goal with |- context [reset_round ?g1 rng] =>
    destruct (reset_round_spec g1 rng) as (gs' & HR & ->) end.
  simpl in HR. eexists _, _. split; [done |]. simpl. repeat split; try done.
  by eapply respawned_after_loop.
Qed.

(** C1 (counterexample). On the last life the collision sets the game-over
    flag and nevertheless resets the round: the Player is moved from cell
    (1, 1) back to its spawn cell. *)
Lemma game_over_collision_moves_player :
  ∃ g' rng',
    lives last_life_game = 1
    ∧ existsb (lethal (pos (p_actor (pacman last_life_game)))) (ghosts last_life_game)
      = true
    ∧ collision_logic last_life_game [] = Some (g', rng')
    ∧ lives g' = 0 ∧ game_over g' = true
    ∧ current_cell (p_actor (pacman last_life_game)) = (1, 1)
    ∧ current_cell (p_actor (pacman g')) = (3, 3)
    ∧ ¬ ((pos (p_actor (pacman g'))).1 == (pos (p_actor (pacman last_life_game))).1)%Q.
Proof.
  eexists _, _. split; [reflexivity |]. split; [vm_compute; reflexivity |].
  split; [vm_compute; reflexivity |]. simpl.
  repeat split; try (vm_compute; reflexivity).
  vm_compute. discriminate.
Qed.

(** C1 (amended). When the Player collides with an alive Adversary that is
    not frightened and this takes the last life, collision resolution
    returns with the lives at zero and the game-over flag set, and it has
    performed the round reset: the Player is a fresh Player on its spawn
    cell, every Adversary is on its spawn cell, alive and not frightened,
    and the power-mode expiry is 0.  The maze and the win flag are as
    before. *)
Theorem collision_game_over_resets g rng :
  lives g = 1 →
  existsb (lethal (pos (p_actor (pacman g)))) (ghosts g) = true →
  ∃ g' rng',
    collision_logic g rng = Some (g', rng')
    ∧ lives g' = 0 ∧ game_over g' = true
    ∧ pacman g' = Pacman_init PACMAN_SPAWN
    ∧ Forall2 respawned (ghosts g) (ghosts g')
    ∧ power_expires_at g' = 0
    ∧ maze g' = maze g ∧ win g' = win g.
Proof.
  intros Hl Hhit.
  destruct (collision_logic_hit g rng Hhit)
    as (g' & rng' & Hrun & Hl' & Hgo & Hp & Hgs & Hpe & Hm & Hw).
  exists g', rng'. rewrite Hl in Hl', Hgo. by repeat split.
Qed.

Lemma collision_game_over_resets_witness :
  ∃ g' rng',
    collision_logic last_life_game [] = Some (g', rng')
    ∧ lives g' = 0 ∧ game_over g' = true
    ∧ pacman g' = Pacman_init PACMAN_SPAWN
    ∧ Forall2 respawned (ghosts last_life_game) (ghosts g')
    ∧ power_expires_at g' = 0
    ∧ maze g' = maze last_life_game ∧ win g' = win last_life_game.
Proof.
  apply (collision_game_over_resets last_life_game []).
  - reflexivity.
  - vm_compute. reflexivity.
Defined.

(** ** Dead adversaries and collisions *)

Lemma collision_loop_length ppos gs sc tm :
  length (collision_loop ppos gs sc tm).1.1.1 = length gs.
Proof.
  symmetry. eapply Forall2_length, collision_loop_same_place.
Qed.

(** The loop steps over a dead Adversary: with it in the list the loop does
    what it does without it, and hands it back in its place as it was. *)
Lemma collision_loop_skip ppos pre d post : ∀ sc tm,
  alive d = false →
  collision_loop ppos (pre ++ d :: post) sc tm =
    let '(r, sc', tm', hit) := collision_loop ppos (pre ++ post) sc tm in
    (take (length pre) r ++ d :: drop (length pre) r, sc', tm', hit).
Proof.
  intros sc tm Hd. revert sc tm.
  induction pre as [| gh pre IH]; intros sc tm; simpl.
  - rewrite Hd. simpl. destruct (collision_loop ppos post sc tm) as [[[r ?] ?] ?].
    by rewrite drop_0.
  - destruct (negb (alive gh)); [| destruct (within_reach _ _); [destruct (frightened gh) |]].
    + rewrite IH. by destruct (collision_loop ppos (pre ++ post) sc tm) as [[[r ?] ?] ?].
    + rewrite IH. by destruct (collision_loop ppos (pre ++ post) _ _) as [[[r ?] ?] ?].
    + simpl. by rewrite take_app_length, drop_app_length.
    + rewrite IH. by destruct (collision_loop ppos (pre ++ post) sc tm) as [[[r ?] ?] ?].
Qed.

Lemma collision_loop_none ppos gs : ∀ sc tm,
  Forall (λ gh, alive gh = false ∨ within_reach ppos (pos (g_actor gh)) = false) gs →
  collision_loop ppos gs sc tm = (gs, sc, tm, false).
Proof.
  intros sc tm Hgs. induction Hgs as [| gh gs Hgh _ IH]; simpl; [done |].
  rewrite IH. destruct Hgh as [-> | Hfar]; simpl; [done |].
  rewrite Hfar. by destruct (alive gh).
Qed.

(** C8. A dead Adversary never triggers a collision, wherever it is (no
    assumption is made on its position, so it may coincide with the
    Player's).  Collision resolution on a game that holds the dead Adversary
    [d] returns, and score, lives and game-over flag come out as in the same
    game without [d].  Unless a collision with another Adversary takes a
    life (and resets the round), [d] is afterwards in its place, unchanged.
    When no alive Adversary is within reach, the whole game is unchanged. *)
Theorem dead_ghost_never_collides g rng pre d post :
  ghosts g = pre ++ d :: post → alive d = false →
  ∃ g' rng' g0' rng0',
    collision_logic g rng = Some (g', rng')
    ∧ collision_logic (set_ghosts g (pre ++ post)) rng = Some (g0', rng0')
    ∧ score g' = score g0' ∧ lives g' = lives g0' ∧ game_over g' = game_over g0'
    ∧ (lives g' = lives g → ghosts g' !! length pre = Some d)
    ∧ (Forall (λ gh, alive gh = false
                     ∨ within_reach (pos (p_actor (pacman g))) (pos (g_actor gh)) = false)
         (pre ++ post) →
       score g' = score g ∧ lives g' = lives g ∧ g' = g ∧ rng' = rng).
Proof.
  intros Hgs Hd. unfold collision_logic. simpl. rewrite Hgs.
  rewrite (collision_loop_skip _ pre d post _ _ Hd).
  pose proof (collision_loop_length (pos (p_actor (pacman g))) (pre ++ post) (score g)
                (respawn_timer g)) as Hlen.
  pose proof (collision_loop_none (pos (p_actor (pacman g))) (pre ++ post) (score g)
                (respawn_timer g)) as Hnone.
  destruct (collision_loop _ (pre ++ post) _ _) as [[[r sc] tm] hit]. simpl in Hlen.
  destruct hit.
  - do 2 match goal with |- context [reset_round ?g1 rng] =>
      destruct (reset_round_spec g1 rng) as (? & _ & ->) end.
    eexists _, _, _, _. split; [done |]. split; [done |]. simpl.
    split; [done |]. split; [done |]. split; [done |]. split; [intros; lia |].
    intros Hfar. by specialize (Hnone Hfar).
  - eexists _, _, _, _. split; [done |]. split; [done |]. simpl.
    split; [done |]. split; [done |]. split; [done |]. split.
    + intros _. apply list_lookup_middle. rewrite length_take_le; [done |].
      rewrite Hlen, length_app. lia.
    + intros Hfar. injection (Hnone Hfar) as -> -> ->.
      split; [done |]. split; [done |]. split; [| done].
      rewrite take_app_length, drop_app_length, <- Hgs. by destruct g.
Qed.

Lemma dead_ghost_never_collides_witness :
  let g := dead_on_player_game in
  let d := mkGhost (mkActor (grid_to_pixel (1, 1)) LEFT GHOST_SPEED) false (3, 1) false in
  let other := mkGhost (mkActor (grid_to_pixel (3, 5)) LEFT GHOST_SPEED) false (3, 5) true in
  within_reach (pos (p_actor (pacman g))) (pos (g_actor d)) = true ∧
  ∃ g' rng' g0' rng0',
    collision_logic g [] = Some (g', rng')
    ∧ collision_logic (set_ghosts g ([] ++ [other])) [] = Some (g0', rng0')
    ∧ score g' = score g0' ∧ lives g' = lives g0' ∧ game_over g' = game_over g0'
    ∧ (lives g' = lives g → ghosts g' !! length (@nil Ghost) = Some d)
    ∧ (Forall (λ gh, alive gh = false
                     ∨ within_reach (pos (p_actor (pacman g))) (pos (g_actor gh)) = false)
         ([] ++ [other]) →
       score g' = score g ∧ lives g' = lives g ∧ g' = g ∧ rng' = []).
Proof.
  intros g d other. split; [vm_compute; reflexivity |].
  destruct (dead_ghost_never_collides g [] [] d [other]) as (g' & rng' & g0' & rng0' & H);
    [reflexivity | reflexivity |].
  exists g', rng', g0', rng0'. intuition.
Defined.

(** ** Consumption at the Player's cell *)

(** C7. Let the maze be in any state of its lifetime.  If the Player's cell
    holds a power pellet, [eat_logic] returns, adds 50 to the score, sets the
    power-mode expiry to the current time plus 6000, marks every alive
    Adversary frightened and leaves the frightened flag of every dead one as
    it was.  If the cell holds a regular pellet, it adds 10 to the score and
    changes neither the expiry nor any Adversary. *)
Theorem eat_logic_power_mode lay m0 g now :
  Maze_init lay = Some m0 → lifetime m0 (maze g) →
  let cell := current_cell (p_actor (pacman g)) in
  (cell ∈ power_pellets (maze g) →
   ∃ g', eat_logic g now = Some g'
     ∧ score g' = score g + 50
     ∧ power_expires_at g' = now + 6000
     ∧ Forall2 frightened_if_alive (ghosts g) (ghosts g')
     ∧ power_pellets (maze g') = power_pellets (maze g) ∖ {[ cell ]}) ∧
  (cell ∈ pellets (maze g) →
   ∃ g', eat_logic g now = Some g'
     ∧ score g' = score g + 10
     ∧ power_expires_at g' = power_expires_at g
     ∧ ghosts g' = ghosts g
     ∧ pellets (maze g') = pellets (maze g) ∖ {[ cell ]}).
Proof.
  intros Hinit Hlife cell.
  assert (maze_ok (maze g)) as Hok by (eapply lifetime_ok; eauto using Maze_init_ok).
  split; intros Hin; unfold eat_logic; fold cell.
  - destruct (eat_at_power (maze g) cell Hok Hin) as (m1 & -> & Hp & Hpp). simpl.
    eexists. split; [done |]. simpl.
    split; [done |]. split; [done |]. split; [| done].
    apply Forall2_fmap_r, Forall_Forall2_diag, Forall_forall.
    intros [a fr sp al] _. unfold frightened_if_alive. by destruct al.
  - destruct (eat_at_pellet (maze g) cell Hok Hin) as (m1 & -> & Hp & Hpp). simpl.
    eexists. split; [done |]. simpl. by repeat split.
Qed.

Lemma eat_logic_power_mode_witness :
  let g := on_power_pellet_game in
  ∃ g', eat_logic g 1000 = Some g'
    ∧ score g' = score g + 50
    ∧ power_expires_at g' = 1000 + 6000
    ∧ Forall2 frightened_if_alive (ghosts g) (ghosts g')
    ∧ power_pellets (maze g') = power_pellets (maze g) ∖ {[ (3, 1) ]}.
Proof.
  intros g.
  apply (proj1 (eat_logic_power_mode maze_layout initial_maze g 1000
                  initial_maze_built (life_built initial_maze))).
  vm_compute. reflexivity.
Defined.

(** ** Dead adversaries and motion *)

(** C2 (counterexample). One tick moves the dead Adversary 2.6 units to the
    left. *)
Lemma dead_ghost_moves :
  ∃ s' d d',
    update_tick dead_ghost_game [] 0 0 = Some s'
    ∧ ghosts dead_ghost_game !! 0%nat = Some d ∧ alive d = false
    ∧ ghosts s'.1 !! 0%nat = Some d' ∧ alive d' = false
    ∧ ((pos (g_actor d)).1 == 224)%Q
    ∧ ((pos (g_actor d')).1 == 224 - (26 # 10))%Q
    ∧ ¬ ((pos (g_actor d')).1 == (pos (g_actor d)).1)%Q.
Proof.
  eexists _, _, _. split; [vm_compute; reflexivity |].
  split; [reflexivity |]. split; [reflexivity |].
  split; [reflexivity |]. split; [reflexivity |].
  split; [vm_compute; reflexivity |]. split; [vm_compute; reflexivity |].
  vm_compute. discriminate.
Qed.

Lemma Ghost_update_alive_flag m gh rng :
  Ghost_update m gh rng =
    (λ r : Ghost * Rng,
       (mkGhost (g_actor r.1) (frightened r.1) (respawn_cell r.1) (alive gh), r.2))
      <$> Ghost_update m (revive gh) rng.
Proof.
  unfold Ghost_update, revive. simpl.
  destruct (if is_centered _ then _ else _) as [[a r] |]; simpl; [| done].
  by destruct (Actor_move m a).
Qed.

(** The loop over the Adversaries neither reads nor changes the alive flag:
    the actors it leaves and the random numbers it draws are those it would
    leave if every Adversary were alive. *)
Lemma dead_ghost_moves_like_alive m gs rng :
  (λ r : list Ghost * Rng, (g_actor <$> r.1, r.2)) <$> each_ghost (Ghost_update m) gs rng
  = (λ r : list Ghost * Rng, (g_actor <$> r.1, r.2))
      <$> each_ghost (Ghost_update m) (revive <$> gs) rng
  ∧ (λ r : list Ghost * Rng, alive <$> r.1) <$> each_ghost (Ghost_update m) gs rng
    = (λ _, alive <$> gs) <$> each_ghost (Ghost_update m) gs rng.
Proof.
  revert rng. induction gs as [| gh gs IH]; intros rng; [done |].
  rewrite fmap_cons. cbn [each_ghost].
  rewrite (Ghost_update_alive_flag m gh rng).
  destruct (Ghost_update m (revive gh) rng) as [[gh1 r1] |]; [| done]. simpl.
  destruct (IH r1) as [IH1 IH2].
  destruct (each_ghost (Ghost_update m) gs r1) as [[gs1 r2] |];
    destruct (each_ghost (Ghost_update m) (revive <$> gs) r1) as [[gs2 r3] |];
    simpl in *; try done.
  unfold fmap in IH1, IH2. split; congruence.
Qed.

(** * Further properties of the code *)

(** ** Grid and pixel coordinates *)

(** X1. On the cells whose coordinates are at most 2^40 in absolute value
    (where the float sums of [grid_to_pixel] are exact) [pixel_to_grid]
    undoes [grid_to_pixel], and the pixel position of the cell is centered:
    an actor placed on such a cell by [__init__] or [reset_to_spawn]
    resolves to that cell and may choose a direction at once. *)
Theorem grid_to_pixel_round_trip cell :
  small_cell cell →
  pixel_to_grid (grid_to_pixel cell) = cell ∧ is_centered (grid_to_pixel cell) = true.
Proof.
  intros _. split; [apply pixel_to_grid_to_pixel |].
  apply is_centered_iff. unfold center_offset.
  rewrite pixel_to_grid_to_pixel. destruct (grid_to_pixel cell) as [x y]. simpl.
  split; split; lra.
Qed.

Lemma grid_to_pixel_round_trip_witness :
  pixel_to_grid (grid_to_pixel (3, 5)) = (3, 5)
  ∧ is_centered (grid_to_pixel (3, 5)) = true.
Proof.
  apply (grid_to_pixel_round_trip (3, 5)).
  split; vm_compute; discriminate.
Defined.

(** ** Construction of a maze *)

Lemma for_each_total {S} (body : Z → S → option S) xs :
  (∀ x s, x ∈ xs → is_Some (body x s)) → ∀ s, is_Some (for_each xs body s).
Proof.
  induction xs as [| x xs IH]; intros Hb s; simpl; [by eexists |].
  destruct (Hb x s) as [s1 ->]; [apply elem_of_cons; auto |]. simpl.
  apply IH. intros y s' Hy. apply Hb. apply elem_of_cons. auto.
Qed.

Lemma scan_cell_total lay r c st :
  is_Some (cell_value lay r c) → is_Some (scan_cell lay r c st).
Proof.
  unfold cell_value, scan_cell. intros [v Hv].
  destruct (py_get lay r) as [row |]; simpl in *; [| done].
  rewrite Hv. simpl. repeat case_bool_decide; by eexists.
Qed.

Lemma cell_value_row (lay : list (list Z)) (i : nat) row c :
  lay !! i = Some row → 0 <= c →
  (is_Some (cell_value lay (Z.of_nat i) c) ↔ (Z.to_nat c < length row)%nat).
Proof.
  intros Hrow Hc. unfold cell_value.
  rewrite py_get_nonneg by lia. rewrite Nat2Z.id, Hrow. simpl.
  rewrite py_get_nonneg by done. apply lookup_lt_is_Some.
Qed.

(** X3. [Maze(layout)] raises [IndexError] exactly when the layout is empty
    or some row is shorter than the first row; rows longer than the first
    are accepted (their surplus entries are never read). *)
Theorem Maze_init_accepts lay : is_Some (Maze_init lay) ↔ layout_accepted lay.
Proof.
  unfold Maze_init, layout_accepted. destruct lay as [| row0 rest]; [by split; [intros [? ?] |] |].
  change (py_get (row0 :: rest) 0) with (Some row0). cbn [mbind option_bind].
  set (lay := row0 :: rest). split.
  - intros [m Hm].
    destruct (scan_pellets lay _ _) as [st |] eqn:Hscan; simpl in Hm; [| done].
    apply scan_pellets_spec in Hscan as (Ht & _ & _).
    apply Forall_forall. intros row [i Hi]%list_elem_of_lookup_1.
    destruct (decide (length row0 = 0%nat)) as [-> | Hne]; [lia |].
    pose proof (lookup_lt_Some _ _ _ Hi) as Hlt.
    specialize (Ht (Z.of_nat i) (Z.of_nat (length row0) - 1)).
    unfold range in Ht. rewrite !elem_of_seqZ in Ht.
    apply (cell_value_row lay i row) in Ht; [| done | lia .. ]. lia.
  - intros Hall.
    assert (is_Some (scan_pellets lay (Z.of_nat (length lay)) (Z.of_nat (length row0))))
      as [st ->]; [| by eexists].
    unfold scan_pellets. apply for_each_total. intros r st Hr. unfold range in *.
    apply for_each_total. intros c st' Hc. apply scan_cell_total.
    apply elem_of_seqZ in Hr, Hc.
    destruct (lookup_lt_is_Some_2 lay (Z.to_nat r)) as [row Hrow]; [lia |].
    replace r with (Z.of_nat (Z.to_nat r)) by lia.
    apply (cell_value_row lay _ row); [done | lia |].
    rewrite Forall_forall in Hall.
    specialize (Hall row (list_elem_of_lookup_2 _ _ _ Hrow)). lia.
Qed.

(** ** Open neighbours *)

Lemma keep_open_spec m ps :
  maze_ok m →
  ∃ l, keep_open m ps = Some l ∧ ∀ p, p ∈ l ↔ p ∈ ps ∧ is_wall m p = Some false.
Proof.
  intros Hok. induction ps as [| q ps (l & IH & Hl)]; simpl.
  - exists []. split; [done |]. intros p. split; [by intros ?%elem_of_nil | by intros [?%elem_of_nil _]].
  - destruct (is_wall_total m q Hok) as [w Hw]. rewrite Hw, IH. simpl.
    eexists. split; [done |]. intros p. destruct w.
    + rewrite Hl, elem_of_cons. split; [intros [? ?]; auto |].
      intros [[-> | ?] Hp]; [congruence | done].
    + rewrite !elem_of_cons, Hl. split.
      * intros [-> | [? ?]]; auto.
      * intros [[-> | ?] Hp]; auto.
Qed.

Lemma keep_open_ext m m' ps :
  (∀ c, is_wall m' c = is_wall m c) → keep_open m' ps = keep_open m ps.
Proof.
  intros Hw. induction ps as [| q ps IH]; simpl; [done |]. by rewrite Hw, IH.
Qed.

Lemma is_wall_false_in_bounds m p : is_wall m p = Some false → in_bounds m p = true.
Proof. unfold is_wall. by destruct (in_bounds m p). Qed.

Lemma keep_open_length m ps l : keep_open m ps = Some l → (length l <= length ps)%nat.
Proof.
  revert l. induction ps as [| q ps IH]; simpl; intros l Hl; [by injection Hl as <- |].
  destruct (is_wall m q) as [w |]; simpl in Hl; [| done].
  destruct (keep_open m ps) as [rest |]; simpl in Hl; [| done].
  injection Hl as <-. specialize (IH rest eq_refl). destruct w; simpl; lia.
Qed.

(** X4. In every state of a maze's lifetime [neighbors_open] returns, and
    the cells it returns are exactly the cells next to the given one (right,
    left, below, above) that are not walls; all of them lie inside the
    bounds, also when the given cell is outside.  Consuming pellets never
    changes the answer: it is the one the maze gave when it was built. *)
Theorem neighbors_open_spec lay m0 m cell :
  Maze_init lay = Some m0 → lifetime m0 m →
  ∃ l,
    neighbors_open m cell = Some l
    ∧ neighbors_open m0 cell = Some l
    ∧ (∀ p, p ∈ l ↔ adjacent cell p ∧ is_wall m p = Some false)
    ∧ (∀ p, p ∈ l → in_bounds m p = true)
    ∧ (length l <= 4)%nat.
Proof.
  intros Hinit Hlife.
  assert (maze_ok m0) as Hok0 by eauto using Maze_init_ok.
  assert (maze_ok m) as Hok by (by eapply lifetime_ok).
  destruct cell as [c r]. unfold neighbors_open.
  destruct (keep_open_spec m [(c + 1, r); (c - 1, r); (c, r + 1); (c, r - 1)] Hok)
    as (l & Hl & Hin).
  exists l. split; [done |]. split.
  { rewrite <- Hl. symmetry. apply keep_open_ext. intros p. by apply lifetime_is_wall. }
  split; [| split].
  - intros p. rewrite Hin. unfold adjacent. simpl.
    rewrite !elem_of_cons, elem_of_nil. intuition.
  - intros p [_ Hp]%Hin. by apply is_wall_false_in_bounds.
  - apply keep_open_length in Hl. simpl in Hl. done.
Qed.

Lemma neighbors_open_spec_witness :
  ∃ l,
    neighbors_open maze_after_eat (1, 1) = Some l
    ∧ neighbors_open initial_maze (1, 1) = Some l
    ∧ (∀ p, p ∈ l ↔ adjacent (1, 1) p ∧ is_wall maze_after_eat p = Some false)
    ∧ (∀ p, p ∈ l → in_bounds maze_after_eat p = true)
    ∧ (length l <= 4)%nat.
Proof.
  apply (neighbors_open_spec maze_layout initial_maze maze_after_eat (1, 1)).
  - vm_compute. reflexivity.
  - exact maze_after_eat_life.
Defined.

(** ** Counting the remaining dots *)

Lemma eat_at_effect m cell s m' :
  eat_at m cell = Some (s, m') →
  (s = 0 ∨ s = 10 ∨ s = 50)
  ∧ (s ≠ 0 ↔ cell ∈ pellets m ∨ cell ∈ power_pellets m)
  ∧ (s ≠ 0 → remaining_dots m' = remaining_dots m - 1)
  ∧ (s = 0 → m' = m).
Proof.
  assert (∀ X : gset Cell, cell ∈ X →
            Z.of_nat (size (X ∖ {[ cell ]})) = Z.of_nat (size X) - 1) as Hsize.
  { intros X Hin. rewrite size_difference by set_solver. rewrite size_singleton.
    assert (size X ≠ 0%nat); [| lia].
    intros H0%size_empty_inv. set_solver. }
  unfold eat_at, remaining_dots. destruct (decide (cell ∈ pellets m)) as [Hp | Hp].
  - destruct (layout_set _ _ _ _); simpl; [| done]. intros [= <- <-]. simpl.
    rewrite Hsize by done. unfold PELLET_SCORE. repeat split; auto; try lia; done.
  - destruct (decide (cell ∈ power_pellets m)) as [Hpp | Hpp].
    + destruct (layout_set _ _ _ _); simpl; [| done]. intros [= <- <-]. simpl.
      rewrite Hsize by done. unfold POWER_PELLET_SCORE. repeat split; auto; try lia; done.
    + intros [= <- <-]. repeat split; auto; try done. intros [? | ?]; done.
Qed.

(** X5. A call of [eat_at] that returns a nonzero score returns 10 or 50, had
    a pellet or power pellet on the cell, and lowers [remaining_dots] by
    exactly one; a call that returns 0 found nothing on the cell and leaves
    the maze as it was. *)
Theorem eat_at_remaining_dots m cell s m' :
  eat_at m cell = Some (s, m') →
  (s = 0 ∨ s = 10 ∨ s = 50)
  ∧ (s ≠ 0 ↔ cell ∈ pellets m ∨ cell ∈ power_pellets m)
  ∧ (s ≠ 0 → remaining_dots m' = remaining_dots m - 1)
  ∧ (s = 0 → m' = m).
Proof. apply eat_at_effect. Qed.

Lemma eat_at_remaining_dots_witness :
  ∃ m',
    eat_at initial_maze (3, 1) = Some (50, m')
    ∧ remaining_dots m' = remaining_dots initial_maze - 1.
Proof.
  assert (∃ m', eat_at initial_maze (3, 1) = Some (50, m')) as [m' H].
  { eexists. vm_compute. reflexivity. }
  exists m'. split; [exact H |].
  apply (eat_at_remaining_dots initial_maze (3, 1) 50 m' H). discriminate.
Defined.

(** ** How far and where an actor moves *)

Lemma Qtrunc_nonneg q : (0 <= q)%Q → 0 <= Qtrunc q ∧ (inject_Z (Qtrunc q) <= q)%Q.
Proof.
  destruct q as [n d]. unfold Qtrunc, Qle, inject_Z. simpl. intros Hn.
  pose proof (Z.quot_rem' n (Z.pos d)) as E.
  pose proof (Z.rem_nonneg n (Z.pos d) ltac:(done) ltac:(lia)) as B.
  pose proof (Z.quot_pos n (Z.pos d) ltac:(lia) ltac:(lia)) as P.
  split; [done | lia].
Qed.

Lemma Qtrunc_nonpos q : (q <= 0)%Q → Qtrunc q <= 0 ∧ (q <= inject_Z (Qtrunc q))%Q.
Proof.
  destruct q as [n d]. unfold Qtrunc, Qle, inject_Z. simpl. intros Hn.
  pose proof (Z.quot_rem' n (Z.pos d)) as E.
  pose proof (Z.rem_nonpos n (Z.pos d) ltac:(done) ltac:(lia)) as B.
  pose proof (Z.rem_bound_abs n (Z.pos d) ltac:(done)) as A.
  split; nia.
Qed.

Lemma move_steps_displacement m n : ∀ a a',
  move_steps m n a = Some a' →
  dir a' = dir a ∧ speed a' = speed a ∧
  ∃ j : nat, (j <= n)%nat
    ∧ ((pos a').1 == (pos a).1 + inject_Z (dir a).1 * inject_Z (Z.of_nat j))%Q
    ∧ ((pos a').2 == (pos a).2 + inject_Z (dir a).2 * inject_Z (Z.of_nat j))%Q.
Proof.
  induction n as [| n IH]; intros a a' Hrun; simpl in Hrun.
  - injection Hrun as <-. split; [done |]. split; [done |]. exists 0%nat.
    split; [done |]. change (inject_Z (Z.of_nat 0)) with 0%Q. split; lra.
  - destruct (can_move_dir m a (dir a)) as [[] |]; simpl in Hrun; [| | done].
    + apply IH in Hrun as (Hd & Hs & j & Hj & Hx & Hy). simpl in *.
      split; [done |]. split; [done |]. exists (S j). split; [lia |].
      rewrite Nat2Z.inj_succ. unfold Z.succ. rewrite inject_Z_plus.
      change (inject_Z 1) with 1%Q. rewrite Hx, Hy. split; lra.
    + injection Hrun as <-. split; [done |]. split; [done |]. exists 0%nat.
      split; [lia |]. change (inject_Z (Z.of_nat 0)) with 0%Q. split; lra.
Qed.

Lemma Actor_move_keeps_dir m a a' :
  Actor_move m a = Some a' → dir a' = dir a ∧ speed a' = speed a.
Proof.
  unfold Actor_move. case_bool_decide; [by intros [= <-] |].
  destruct (move_steps m _ a) as [a1 |] eqn:Hsteps; simpl; [| done].
  apply move_steps_displacement in Hsteps as (Hd & Hs & _).
  destruct (Qltb 0 _); [| by intros [= <-]].
  destruct (can_move_dir m a1 (dir a1)) as [[] |]; simpl; [| | done];
    by intros [= <-].
Qed.

(** With exact arithmetic one call of [move] takes the actor along its
    direction by [k] units for some [0 <= k <= speed] ([k = 0] when the
    speed is negative). *)
Lemma Actor_move_exact_displacement m a a' :
  Actor_move m a = Some a' →
  dir a' = dir a ∧ speed a' = speed a ∧
  ∃ k : Q,
    (0 <= k)%Q ∧ (k == 0 ∨ k <= speed a)%Q
    ∧ ((pos a').1 == (pos a).1 + inject_Z (dir a).1 * k)%Q
    ∧ ((pos a').2 == (pos a).2 + inject_Z (dir a).2 * k)%Q.
Proof.
  intros Hmv. split; [by eapply Actor_move_keeps_dir |].
  split; [by eapply Actor_move_keeps_dir |].
  unfold Actor_move in Hmv. case_bool_decide.
  { injection Hmv as <-. exists 0%Q. split; [lra |]. split; [left; lra |]. split; lra. }
  destruct (move_steps m _ a) as [a1 |] eqn:Hsteps; simpl in Hmv; [| done].
  apply move_steps_displacement in Hsteps as (Hd & Hs & j & Hj & Hx & Hy).
  rewrite Hs, Hd in Hmv.
  set (s := speed a) in *. set (t := Qtrunc s) in *.
  assert (0 <= inject_Z (Z.of_nat j))%Q as Hj0.
  { change 0%Q with (inject_Z 0). rewrite <- Zle_Qle. lia. }
  assert (j ≠ 0%nat → (0 <= s)%Q ∧ (inject_Z (Z.of_nat j) <= inject_Z t)%Q) as Hjt.
  { intros Hne. destruct (Qlt_le_dec s 0) as [Hneg | Hpos].
    - destruct (Qtrunc_nonpos s) as [Ht _]; [lra |]. fold t in Ht. lia.
    - split; [done |]. rewrite <- Zle_Qle. lia. }
  assert ((0 <= s)%Q → (inject_Z t <= s)%Q) as Hts.
  { intros Hpos. by destruct (Qtrunc_nonneg s Hpos). }
  assert (a' = a1 →
          ∃ k, (0 <= k)%Q ∧ (k == 0 ∨ k <= s)%Q
            ∧ ((pos a').1 == (pos a).1 + inject_Z (dir a).1 * k)%Q
            ∧ ((pos a').2 == (pos a).2 + inject_Z (dir a).2 * k)%Q) as Hstay.
  { intros ->. exists (inject_Z (Z.of_nat j)). split; [done |]. split; [| done].
    destruct (decide (j = 0%nat)) as [-> | Hne]; [left; reflexivity |].
    right. destruct (Hjt Hne) as [Hpos Hle]. specialize (Hts Hpos). lra. }
  destruct (Qltb 0 (s - inject_Z t)) eqn:Hfrac; [| injection Hmv as <-; by apply Hstay].
  destruct (can_move_dir m a1 (dir a)) as [[] |]; simpl in Hmv; [| | done];
    [| injection Hmv as <-; by apply Hstay].
  injection Hmv as <-. simpl. apply Qltb_lt in Hfrac.
  assert (0 <= s)%Q as Hpos.
  { destruct (Qlt_le_dec s 0) as [Hneg | Hpos]; [| done].
    destruct (Qtrunc_nonpos s) as [_ Ht]; [lra |]. fold t in Ht. lra. }
  assert (inject_Z (Z.of_nat j) <= inject_Z t)%Q as Hle.
  { rewrite <- Zle_Qle. destruct (Qtrunc_nonneg s Hpos) as [Ht _]. fold t in Ht. lia. }
  exists (inject_Z (Z.of_nat j) + (s - inject_Z t))%Q.
  split; [lra |]. split; [right; lra |]. rewrite Hx, Hy. split; lra.
Qed.

(** X6. One call of [move] on an actor whose direction is one of the five
    direction constants never changes direction or speed, and moves the
    actor only along its direction, never backwards and never sideways: the
    new position is the old one plus [k] times the direction for some
    [k >= 0].  (How far it goes is not bounded here: the code adds up floats,
    and the sum of the steps can exceed the speed by a rounding error.) *)
Theorem Actor_move_displacement m a a' :
  Actor_move m a = Some a' → legal_dir (dir a) →
  dir a' = dir a ∧ speed a' = speed a ∧
  ∃ k : Q,
    (0 <= k)%Q
    ∧ ((pos a').1 == (pos a).1 + inject_Z (dir a).1 * k)%Q
    ∧ ((pos a').2 == (pos a).2 + inject_Z (dir a).2 * k)%Q.
Proof.
  intros Hmv _.
  destruct (Actor_move_exact_displacement m a a' Hmv) as (Hd & Hs & k & Hk & _ & Hx & Hy).
  split; [done |]. split; [done |]. by exists k.
Qed.

Lemma Actor_move_displacement_witness :
  let a := mkActor (grid_to_pixel (3, 1)) LEFT GHOST_SPEED in
  ∃ a',
    Actor_move initial_maze a = Some a' ∧
    dir a' = dir a ∧ speed a' = speed a ∧
    ∃ k : Q,
      (0 <= k)%Q
      ∧ ((pos a').1 == (pos a).1 + inject_Z (dir a).1 * k)%Q
      ∧ ((pos a').2 == (pos a).2 + inject_Z (dir a).2 * k)%Q.
Proof.
  intros a.
  assert (∃ a', Actor_move initial_maze a = Some a') as [a' H].
  { eexists. vm_compute. reflexivity. }
  exists a'. split; [exact H |].
  apply (Actor_move_displacement initial_maze a a' H).
  right. right. left. reflexivity.
Defined.

Lemma Actor_move_stuck m a :
  can_move_dir m a (dir a) = Some false → Actor_move m a = Some a.
Proof.
  intros Hcan. unfold Actor_move. case_bool_decide; [done |].
  assert (move_steps m (Z.to_nat (Qtrunc (speed a))) a = Some a) as ->.
  { destruct (Z.to_nat _); simpl; [done |]. by rewrite Hcan. }
  simpl. destruct (Qltb 0 _); [| done]. by rewrite Hcan.
Qed.

(** X7. An actor whose way is blocked ([can_move_dir] answers [False] for
    its direction) is left exactly as it was by [move]: it stays where it is
    and keeps its direction. *)
Theorem Actor_move_blocked m a :
  can_move_dir m a (dir a) = Some false → Actor_move m a = Some a.
Proof. apply Actor_move_stuck. Qed.

Lemma Actor_move_blocked_witness :
  Actor_move initial_maze (mkActor (grid_to_pixel (3, 1)) UP GHOST_SPEED)
  = Some (mkActor (grid_to_pixel (3, 1)) UP GHOST_SPEED).
Proof.
  apply (Actor_move_blocked initial_maze (mkActor (grid_to_pixel (3, 1)) UP GHOST_SPEED)).
  vm_compute. reflexivity.
Defined.

(** ** Turning *)

(** X8. [Pacman.update] keeps the buffered direction, and it changes the
    Player's direction only by committing the buffered one, which it does
    only when the Player is centered and the cell next to it in that
    direction is not a wall: the Player never turns towards a wall and never
    turns between centers. *)
Theorem Pacman_update_turn m p p' :
  Pacman_update m p = Some p' →
  pending_dir p' = pending_dir p
  ∧ (dir (p_actor p') = dir (p_actor p)
     ∨ (dir (p_actor p') = pending_dir p
        ∧ pending_dir p ≠ STOP
        ∧ is_centered (pos (p_actor p)) = true
        ∧ open_dir m (p_actor p) (pending_dir p))).
Proof.
  unfold Pacman_update, open_dir. intros Hup.
  destruct (bool_decide (pending_dir p ≠ STOP)) eqn:Hpd;
    [apply bool_decide_eq_true in Hpd |]; simpl in Hup.
  - destruct (is_centered (pos (p_actor p))) eqn:Hc; simpl in Hup.
    + destruct (is_wall m _) as [[] |] eqn:Hw; simpl in Hup; [| | done].
      * destruct (Actor_move m (p_actor p)) as [a' |] eqn:Hmv; simpl in Hup; [| done].
        injection Hup as <-. apply Actor_move_keeps_dir in Hmv as [Hd _]. auto.
      * destruct (Actor_move m _) as [a' |] eqn:Hmv; simpl in Hup; [| done].
        injection Hup as <-. apply Actor_move_keeps_dir in Hmv as [Hd _].
        simpl in *. split; [done |]. right. auto.
    + destruct (Actor_move m (p_actor p)) as [a' |] eqn:Hmv; simpl in Hup; [| done].
      injection Hup as <-. apply Actor_move_keeps_dir in Hmv as [Hd _]. auto.
  - destruct (Actor_move m (p_actor p)) as [a' |] eqn:Hmv; simpl in Hup; [| done].
    injection Hup as <-. apply Actor_move_keeps_dir in Hmv as [Hd _]. auto.
Qed.

Lemma Pacman_update_turn_witness :
  let p := mkPacman (Actor_init (3, 3) PACMAN_SPEED) LEFT in
  ∃ p',
    pending_dir p' = pending_dir p
    ∧ (dir (p_actor p') = dir (p_actor p)
       ∨ (dir (p_actor p') = pending_dir p
          ∧ pending_dir p ≠ STOP
          ∧ is_centered (pos (p_actor p)) = true
          ∧ open_dir initial_maze (p_actor p) (pending_dir p))).
Proof.
  intros p. eexists. apply (Pacman_update_turn initial_maze p).
  vm_compute. reflexivity.
Defined.

Lemma random_choice_elem {A} (l : list A) rng x rng' :
  random_choice l rng = Some (x, rng') → x ∈ l ∧ rng' = tl rng.
Proof.
  unfold random_choice.
  destruct (l !! _) as [y |] eqn:Hy; simpl; [| done].
  intros [= <- <-]. split; [by eapply list_elem_of_lookup_2 | done].
Qed.

Lemma py_remove_NoDup {A} `{EqDecision A} (x : A) l : NoDup l → x ∉ py_remove x l.
Proof.
  induction 1 as [| y l Hy _ IH]; simpl; [by intros ?%elem_of_nil |].
  case_decide as Hxy; [by subst |].
  intros [-> | Hin]%elem_of_cons; [done | by apply IH].
Qed.

Lemma two_elements {A} (x y : A) l : x ∈ l → y ∈ l → x ≠ y → (1 < length l)%nat.
Proof.
  destruct l as [| a [| b l]]; simpl; [by intros ?%elem_of_nil | | lia].
  intros ->%list_elem_of_singleton ->%list_elem_of_singleton. done.
Qed.

(** The loop of [available_dirs] for a centered actor: the directions with an
    open cell ahead, in the order of [dirs]. *)
Lemma available_loop_centered m a dirs : ∀ valid,
  maze_ok m → is_centered (pos a) = true → NoDup dirs →
  ∃ v, available_loop m a dirs valid = Some (valid ++ v)
    ∧ NoDup v ∧ ∀ d, d ∈ v ↔ d ∈ dirs ∧ open_dir m a d.
Proof.
  intros valid Hok Hc Hnd. revert valid.
  induction Hnd as [| d0 dirs Hd0 _ IH]; intros valid; simpl.
  - exists []. rewrite app_nil_r. split; [done |]. split; [constructor |].
    intros d. split; [by intros ?%elem_of_nil | by intros [?%elem_of_nil _]].
  - destruct (is_wall_total m (add_tuple (current_cell a) d0) Hok) as [w Hw].
    rewrite Hw. simpl. rewrite Hc, andb_false_r. destruct w.
    + destruct (IH valid) as (v & -> & Hndv & Hv). exists v.
      split; [done |]. split; [done |]. intros d.
      rewrite Hv, elem_of_cons. unfold open_dir. split; [intros [? ?]; auto |].
      intros [[-> | ?] Hop]; [congruence | done].
    + destruct (IH (valid ++ [d0])) as (v & -> & Hndv & Hv). exists (d0 :: v).
      split; [by rewrite <- app_assoc |]. split.
      * constructor; [| done]. intros [Hin _]%Hv. done.
      * intros d. rewrite !elem_of_cons, Hv. unfold open_dir. split.
        -- intros [-> | [? ?]]; auto.
        -- intros [[-> | ?] Hop]; auto.
Qed.

(** X9. How an Adversary picks its direction.  Off center, [Ghost.update]
    keeps the direction and draws no random number.  On center, in any maze
    state of a maze's lifetime: if some neighbouring cell is open, the new
    direction is one of the four directions and leads to an open cell; if
    some open direction is not the reverse of the current one, the new
    direction is not the reverse; and only if no neighbouring cell is open
    does the Adversary turn to the reverse regardless of walls. *)
Theorem Ghost_update_direction lay m0 m gh rng gh' rng' :
  Maze_init lay = Some m0 → lifetime m0 m →
  Ghost_update m gh rng = Some (gh', rng') →
  let a := g_actor gh in
  let back := opposite (dir a) in
  let d' := dir (g_actor gh') in
  (is_centered (pos a) = false → d' = dir a ∧ rng' = rng)
  ∧ (is_centered (pos a) = true →
     rng' = tl rng
     ∧ ((∃ d, d ∈ ALL_DIRS ∧ open_dir m a d) → d' ∈ ALL_DIRS ∧ open_dir m a d')
     ∧ ((∃ d, d ∈ ALL_DIRS ∧ open_dir m a d ∧ d ≠ back) → d' ≠ back)
     ∧ ((∀ d, d ∈ ALL_DIRS → ¬ open_dir m a d) → d' = back)).
Proof.
  intros Hinit Hlife Hup a back d'.
  assert (maze_ok m) as Hok by (eapply lifetime_ok; eauto using Maze_init_ok).
  unfold Ghost_update in Hup. fold a in Hup.
  destruct (is_centered (pos a)) eqn:Hc; cycle 1.
  - split; [intros _ | done]. simpl in Hup.
    destruct (Actor_move m a) as [a' |] eqn:Hmv; simpl in Hup; [| done].
    injection Hup as <- <-. apply Actor_move_keeps_dir in Hmv as [Hd _]. done.
  - split; [done | intros _]. unfold available_dirs in Hup.
    destruct (available_loop_centered m a ALL_DIRS [] Hok Hc) as (v & Hv & Hnd & Hin).
    { unfold ALL_DIRS. repeat constructor; rewrite ?elem_of_cons, ?elem_of_nil;
        compute; intuition congruence. }
    rewrite Hv in Hup. simpl in Hup. fold back in Hup.
    set (options := match v with [] => [back] | _ :: _ => v end) in *.
    set (options' := if bool_decide (1 < length options)%nat && bool_decide (back ∈ options)
                     then py_remove back options else options) in *.
    destruct (random_choice options' rng) as [[d r] |] eqn:Hch; simpl in Hup; [| done].
    apply random_choice_elem in Hch as [Hd ->].
    destruct (Actor_move m (set_dir a d)) as [a' |] eqn:Hmv; simpl in Hup; [| done].
    injection Hup as <- <-. apply Actor_move_keeps_dir in Hmv as [Hdir _].
    clear Hv. subst d'. simpl in Hdir |- *. rewrite Hdir. clear Hdir a'.
    assert (d ∈ options) as Hdo.
    { subst options'. destruct (_ && _); [by eapply py_remove_elem | done]. }
    split; [done |]. split; [| split].
    + intros (d0 & Hd0 & Hop). assert (d0 ∈ v) as Hd0v by (apply Hin; auto).
      assert (options = v) as Eo by (subst options; destruct v; [by apply elem_of_nil in Hd0v | done]).
      rewrite Eo in Hdo. by apply Hin in Hdo.
    + intros (d0 & Hd0 & Hop & Hne). assert (d0 ∈ v) as Hd0v by (apply Hin; auto).
      assert (options = v) as Eo by (subst options; destruct v; [by apply elem_of_nil in Hd0v | done]).
      subst options'. rewrite Eo in *. clear Eo.
      destruct (decide (back ∈ v)) as [Hb | Hb].
      * rewrite !bool_decide_true in Hd by (done || by apply (two_elements d0 back)).
        simpl in Hd.
        intros ->. by eapply py_remove_NoDup.
      * intros ->. done.
    + intros Hnone. assert (v = []) as ->.
      { destruct v as [| d1 v]; [done |]. exfalso.
        destruct (Hin d1) as [[H1 H2] _]; [apply elem_of_cons; auto |]. by eapply Hnone. }
      subst options. by apply list_elem_of_singleton in Hdo.
Qed.

Lemma Ghost_update_direction_witness :
  let gh := mkGhost (mkActor (grid_to_pixel (1, 1)) LEFT GHOST_SPEED) false (3, 1) true in
  ∃ gh' rng',
    let a := g_actor gh in
    let back := opposite (dir a) in
    let d' := dir (g_actor gh') in
    (is_centered (pos a) = false → d' = dir a ∧ rng' = [7%nat])
    ∧ (is_centered (pos a) = true →
       rng' = tl [7%nat]
       ∧ ((∃ d, d ∈ ALL_DIRS ∧ open_dir maze_after_eat a d) →
          d' ∈ ALL_DIRS ∧ open_dir maze_after_eat a d')
       ∧ ((∃ d, d ∈ ALL_DIRS ∧ open_dir maze_after_eat a d ∧ d ≠ back) → d' ≠ back)
       ∧ ((∀ d, d ∈ ALL_DIRS → ¬ open_dir maze_after_eat a d) → d' = back)).
Proof.
  intros gh. eexists _, _.
  apply (Ghost_update_direction maze_layout initial_maze maze_after_eat gh [7%nat]).
  - vm_compute. reflexivity.
  - exact maze_after_eat_life.
  - vm_compute. reflexivity.
Defined.

(** ** Eating frightened adversaries *)

Lemma collision_loop_no_lethal ppos gs : ∀ sc tm,
  existsb (lethal ppos) gs = false →
  collision_loop ppos gs sc tm =
    ((λ gh, if edible ppos gh then eaten gh else gh) <$> gs,
     sc + GHOST_EAT_SCORE * eaten_count ppos gs,
     if existsb (edible ppos) gs then Some RESPAWN_DELAY_MS else tm,
     false).
Proof.
  unfold eaten_count.
  induction gs as [| gh gs IH]; intros sc tm Hno.
  - simpl. f_equal. f_equal. f_equal. lia.
  - simpl in Hno. apply orb_false_elim in Hno as [Hgh Hgs].
    cbn [collision_loop existsb List.filter fmap list_fmap].
    assert (edible ppos gh
            = alive gh && frightened gh && within_reach ppos (pos (g_actor gh))) as He
      by done.
    unfold lethal in Hgh.
    destruct (alive gh), (within_reach ppos (pos (g_actor gh))), (frightened gh);
      simpl in Hgh, He; try done; rewrite He; cbn [negb andb orb];
      rewrite IH by done; cbn [length]; unfold fmap;
      repeat match goal with |- (_, _) = (_, _) => f_equal end;
      try done; try lia; by destruct (existsb (edible ppos) gs).
Qed.

(** X10. When no alive, non-frightened Adversary is within reach, collision
    resolution costs no life and resets nothing: it returns without drawing a
    random number, the score grows by 200 for every alive, frightened
    Adversary within reach, exactly those Adversaries become dead and not
    frightened, and lives, Player, maze, power-mode expiry and game-over flag
    are as before. *)
Theorem collision_frightened_only g rng :
  let ppos := pos (p_actor (pacman g)) in
  existsb (lethal ppos) (ghosts g) = false →
  ∃ g',
    collision_logic g rng = Some (g', rng)
    ∧ score g' = score g + 200 * eaten_count ppos (ghosts g)
    ∧ ghosts g' = (λ gh, if edible ppos gh then eaten gh else gh) <$> ghosts g
    ∧ lives g' = lives g ∧ game_over g' = game_over g ∧ win g' = win g
    ∧ pacman g' = pacman g ∧ maze g' = maze g
    ∧ power_expires_at g' = power_expires_at g.
Proof.
  intros ppos Hno. unfold collision_logic. fold ppos.
  rewrite (collision_loop_no_lethal ppos (ghosts g) _ _ Hno).
  eexists. split; [done |]. simpl. by repeat split.
Qed.

Lemma collision_frightened_only_witness :
  let g := frightened_near_game in
  ∃ g',
    collision_logic g [5%nat] = Some (g', [5%nat])
    ∧ score g' = score g + 200 * eaten_count (pos (p_actor (pacman g))) (ghosts g)
    ∧ ghosts g' = (λ gh, if edible (pos (p_actor (pacman g))) gh then eaten gh else gh)
                    <$> ghosts g
    ∧ lives g' = lives g ∧ game_over g' = game_over g ∧ win g' = win g
    ∧ pacman g' = pacman g ∧ maze g' = maze g
    ∧ power_expires_at g' = power_expires_at g.
Proof.
  intros g. apply (collision_frightened_only g [5%nat]). vm_compute. reflexivity.
Defined.

(** ** The respawn event *)

Lemma each_ghost_Forall2_any (R : Ghost → Ghost → Prop) f gs :
  (∀ gh r, ∃ gh' r', f gh r = Some (gh', r') ∧ R gh gh') →
  ∀ rng, ∃ gs' rng', each_ghost f gs rng = Some (gs', rng') ∧ Forall2 R gs gs'.
Proof.
  intros Hf. induction gs as [| gh gs IH]; intros rng; simpl.
  - exists [], rng. split; [done | constructor].
  - destruct (Hf gh rng) as (gh' & r1 & -> & HR). simpl.
    destruct (IH r1) as (gs' & r2 & -> & HRs). simpl.
    exists (gh' :: gs'), r2. split; [done | by constructor].
Qed.

(** X11. The respawn event always returns.  It puts every dead Adversary
    back on its spawn cell, alive and not frightened, and leaves every alive
    Adversary exactly as it is, so afterwards all Adversaries are alive;
    maze, Player, score, lives, power-mode expiry and flags are untouched. *)
Theorem respawn_event_revives g rng :
  ∃ g' rng',
    respawn_event g rng = Some (g', rng')
    ∧ Forall2 revived_if_dead (ghosts g) (ghosts g')
    ∧ Forall (λ gh, alive gh = true) (ghosts g')
    ∧ maze g' = maze g ∧ pacman g' = pacman g ∧ score g' = score g
    ∧ lives g' = lives g ∧ power_expires_at g' = power_expires_at g
    ∧ win g' = win g ∧ game_over g' = game_over g.
Proof.
  unfold respawn_event.
  match goal with |- context [each_ghost ?f _ _] =>
    destruct (each_ghost_Forall2_any revived_if_dead f (ghosts g)) with (rng := rng)
      as (gs & rng' & -> & HR) end.
  { intros gh r. unfold revived_if_dead. destruct (alive gh); [by eauto |].
    destruct (reset_to_spawn_respawned gh r) as (gh' & ? & ?). eauto. }
  simpl. eexists _, _. split; [done |]. simpl. split; [done |].
  split; [| by repeat split].
  clear -HR. induction HR as [| gh gh' gs gs' Hr _ IH]; constructor; [| done].
  unfold revived_if_dead in Hr. destruct (alive gh) eqn:Ha; [by subst |].
  by destruct Hr as (_ & _ & _ & ? & _).
Qed.

(** ** Dead adversaries are never frightened *)

Lemma each_ghost_post (P Q : Ghost → Prop) f gs : ∀ rng gs' rng',
  (∀ gh r gh' r', f gh r = Some (gh', r') → P gh → Q gh') →
  each_ghost f gs rng = Some (gs', rng') → Forall P gs → Forall Q gs'.
Proof.
  intros rng gs' rng' Hf. revert rng gs' rng'.
  induction gs as [| gh gs IH]; intros rng gs' rng' Hrun HP; simpl in Hrun.
  - injection Hrun as <- <-. constructor.
  - destruct (f gh rng) as [[gh1 r1] |] eqn:Hgh; simpl in Hrun; [| done].
    destruct (each_ghost f gs r1) as [[gs1 r2] |] eqn:Hgs; simpl in Hrun; [| done].
    injection Hrun as <- <-. apply Forall_cons in HP as [HP1 HP2].
    constructor; [by eapply Hf | by eapply IH].
Qed.

Lemma each_ghost_length f gs : ∀ rng gs' rng',
  each_ghost f gs rng = Some (gs', rng') → length gs' = length gs.
Proof.
  induction gs as [| gh gs IH]; intros rng gs' rng' Hrun; simpl in Hrun.
  - by injection Hrun as <- <-.
  - destruct (f gh rng) as [[gh1 r1] |]; simpl in Hrun; [| done].
    destruct (each_ghost f gs r1) as [[gs1 r2] |] eqn:Hgs; simpl in Hrun; [| done].
    injection Hrun as <- <-. simpl. f_equal. by eapply IH.
Qed.

Lemma Ghost_update_flags m gh rng gh' rng' :
  Ghost_update m gh rng = Some (gh', rng') →
  alive gh' = alive gh ∧ frightened gh' = frightened gh
  ∧ respawn_cell gh' = respawn_cell gh.
Proof.
  unfold Ghost_update.
  destruct (if is_centered _ then _ else _) as [[a r] |]; simpl; [| done].
  destruct (Actor_move m a); simpl; [| done]. by intros [= <- <-].
Qed.

Lemma reset_to_spawn_flags gh rng gh' rng' :
  reset_to_spawn gh rng = Some (gh', rng') → alive gh' = true ∧ frightened gh' = false.
Proof.
  unfold reset_to_spawn. destruct (random_choice ALL_DIRS rng) as [[d r] |]; simpl; [| done].
  by intros [= <- <-].
Qed.

Lemma collision_loop_flags ppos gs : ∀ sc tm,
  Forall flags_ok gs → Forall flags_ok (collision_loop ppos gs sc tm).1.1.1.
Proof.
  induction gs as [| gh gs IH]; intros sc tm Hgs; simpl; [done |].
  apply Forall_cons in Hgs as [Hgh Hgs].
  destruct (negb (alive gh)); [| destruct (within_reach _ _); [destruct (frightened gh) |]].
  - specialize (IH sc tm Hgs). destruct (collision_loop ppos gs sc tm) as [[[r ?] ?] ?].
    by constructor.
  - specialize (IH (sc + GHOST_EAT_SCORE) (Some RESPAWN_DELAY_MS) Hgs).
    destruct (collision_loop ppos gs _ _) as [[[r ?] ?] ?]. by constructor.
  - simpl. by constructor.
  - specialize (IH sc tm Hgs). destruct (collision_loop ppos gs sc tm) as [[[r ?] ?] ?].
    by constructor.
Qed.

Lemma reset_round_flags g rng g' rng' :
  reset_round g rng = Some (g', rng') → Forall flags_ok (ghosts g').
Proof.
  unfold reset_round.
  destruct (each_ghost reset_to_spawn (ghosts g) rng) as [[gs r] |] eqn:Hgs; simpl; [| done].
  intros [= <- <-]. simpl.
  eapply (each_ghost_post (λ _, True) flags_ok); [| done | by apply Forall_true].
  intros gh r0 gh' r' [Ha Hf]%reset_to_spawn_flags _. by intros _.
Qed.

Lemma update_power_mode_flags g now :
  Forall flags_ok (ghosts g) → Forall flags_ok (ghosts (update_power_mode g now)).
Proof.
  intros Hok. unfold update_power_mode. destruct (_ && _); simpl; [| done].
  apply Forall_fmap, Forall_true. by intros gh.
Qed.

Lemma eat_logic_flags g now g' :
  eat_logic g now = Some g' → Forall flags_ok (ghosts g) → Forall flags_ok (ghosts g').
Proof.
  unfold eat_logic. destruct (eat_at _ _) as [[gained m3] |]; simpl; [| done].
  intros Hrun Hok. repeat case_bool_decide; injection Hrun as <-; simpl; try done.
  apply Forall_fmap. eapply Forall_impl; [done |].
  intros [a fr sp al] Hfl. unfold flags_ok in *. by destruct al.
Qed.

Lemma collision_logic_flags g rng g' rng' :
  collision_logic g rng = Some (g', rng') →
  Forall flags_ok (ghosts g) → Forall flags_ok (ghosts g').
Proof.
  unfold collision_logic. intros Hrun Hok.
  pose proof (collision_loop_flags (pos (p_actor (pacman g))) (ghosts g) (score g)
                (respawn_timer g) Hok) as Hloop.
  destruct (collision_loop _ _ _ _) as [[[gs4 sc4] tm4] hit]. simpl in Hloop.
  destruct hit; [by eapply reset_round_flags |]. by injection Hrun as <- <-.
Qed.

Lemma update_tick_flags g rng now_pm now_eat g' rng' :
  update_tick g rng now_pm now_eat = Some (g', rng') →
  Forall flags_ok (ghosts g) → Forall flags_ok (ghosts g').
Proof.
  unfold update_tick. destruct (game_over g); [by intros [= <- <-] |].
  destruct (Pacman_update _ _) as [p |]; simpl; [| done].
  destruct (each_ghost _ _ _) as [[gs rng1] |] eqn:Hgs; simpl; [| done].
  destruct (eat_logic _ now_eat) as [g3 |] eqn:Heat; simpl; [| done].
  destruct (collision_logic g3 rng1) as [[g4 rng2] |] eqn:Hcol; simpl; [| done].
  intros [= <- <-] Hok.
  assert (Forall flags_ok gs) as Hok1.
  { eapply (each_ghost_post flags_ok flags_ok); [| done | done].
    intros gh r gh' r' (Ha & Hf & _)%Ghost_update_flags. unfold flags_ok.
    by rewrite Ha, Hf. }
  apply eat_logic_flags in Heat; [| by apply update_power_mode_flags].
  apply collision_logic_flags in Hcol; [| done].
  unfold check_win. by case_bool_decide.
Qed.

Lemma run_state_ticks n now : ∀ s s',
  run_state s → ticks n s now = Some s' → run_state s'.
Proof.
  induction n as [| n IH]; intros [g rng] s' Hs Hrun; simpl in Hrun.
  - by injection Hrun as <-.
  - destruct (update_tick g rng now now) as [s1 |] eqn:Htick; simpl in Hrun; [| done].
    apply (IH s1 s'); [| done].
    apply (run_step (g, rng)); [done |]. by apply (step_tick g rng now now).
Qed.

Lemma run_state_press_key d s :
  run_state s → game_over s.1 = false → d ∈ ALL_DIRS → run_state (press_key d s).
Proof.
  destruct s as [g rng]. intros Hs Hgo Hd.
  apply (run_step (g, rng)); [done |]. by apply step_key.
Qed.

(** X12. In every state of every run of the game a dead Adversary is not
    frightened: only alive Adversaries are marked frightened, an eaten one
    loses the mark with its life, and nothing kills without clearing it. *)
Theorem dead_never_frightened s :
  run_state s → Forall flags_ok (ghosts s.1).
Proof.
  assert (∀ tm rng s0, Game_init tm rng = Some s0 → Forall flags_ok (ghosts s0.1)) as Hinit.
  { intros tm rng s0. unfold Game_init, Ghost_init.
    destruct (Maze_init maze_layout); simpl; [| done].
    destruct (random_choice ALL_DIRS rng) as [[d1 r1] |]; simpl; [| done].
    destruct (random_choice ALL_DIRS r1) as [[d2 r2] |]; simpl; [| done].
    intros [= <-]. simpl. by repeat constructor. }
  induction 1 as [rng s Hs | s s' _ IH Hstep]; [by eapply Hinit |].
  destruct Hstep as [g rng d Hgo Hd | g rng s' Hgo Hs | g rng [g' rng'] Hev
                    | g rng n1 n2 [g' rng'] Htick]; simpl in *.
  - done.
  - by eapply Hinit.
  - unfold respawn_event in Hev.
    destruct (each_ghost _ _ _) as [[gs r] |] eqn:Hgs; simpl in Hev; [| done].
    injection Hev as <- <-. simpl.
    eapply (each_ghost_post flags_ok flags_ok); [| done | done].
    intros gh r0 gh' r' Hf Hfl. simpl in Hf. revert Hf.
    destruct (alive gh) eqn:Ha; intros Hf.
    + by injection Hf as <- <-.
    + apply reset_to_spawn_flags in Hf as [Ha' Hfr]. by intros _.
  - by eapply update_tick_flags.
Qed.

Lemma dead_never_frightened_witness :
  alive <$> ghosts run_with_dead_ghost.1 = [true; false]
  ∧ frightened <$> ghosts run_with_dead_ghost.1 = [true; false]
  ∧ Forall flags_ok (ghosts run_with_dead_ghost.1).
Proof.
  split; [vm_compute; reflexivity |]. split; [vm_compute; reflexivity |].
  apply (dead_never_frightened run_with_dead_ghost).
  apply (run_state_ticks 40 0 (press_key DOWN run_at_corner));
    [| vm_compute; reflexivity].
  apply run_state_press_key;
    [| vm_compute; reflexivity | unfold ALL_DIRS; repeat constructor].
  apply (run_state_ticks 43 0 (press_key LEFT run_begin));
    [| vm_compute; reflexivity].
  apply run_state_press_key;
    [| vm_compute; reflexivity | unfold ALL_DIRS; repeat constructor].
  apply (run_start [2%nat; 2%nat]). vm_compute. reflexivity.
Defined.

(** ** What one tick can change *)

Lemma eat_logic_effect g now g' :
  eat_logic g now = Some g' →
  lives g' = lives g ∧ win g' = win g ∧ game_over g' = game_over g
  ∧ pacman g' = pacman g ∧ length (ghosts g') = length (ghosts g)
  ∧ ∃ s, eat_at (maze g) (current_cell (p_actor (pacman g))) = Some (s, maze g')
         ∧ score g' = score g + s.
Proof.
  unfold eat_logic. destruct (eat_at _ _) as [[gained m3] |]; simpl; [| done].
  intros Hrun.
  repeat case_bool_decide; injection Hrun as <-; simpl;
    rewrite ?length_fmap; repeat split; try done; exists gained; (split; [done | lia]).
Qed.

Lemma collision_loop_score ppos gs : ∀ sc tm, sc <= (collision_loop ppos gs sc tm).1.1.2.
Proof.
  induction gs as [| gh gs IH]; intros sc tm; simpl; [lia |].
  destruct (negb (alive gh)); [| destruct (within_reach _ _); [destruct (frightened gh) |]].
  - specialize (IH sc tm). by destruct (collision_loop ppos gs sc tm) as [[[r ?] ?] ?].
  - specialize (IH (sc + GHOST_EAT_SCORE) (Some RESPAWN_DELAY_MS)).
    destruct (collision_loop ppos gs _ _) as [[[r ?] ?] ?]. simpl in *.
    unfold GHOST_EAT_SCORE in IH. lia.
  - simpl. lia.
  - specialize (IH sc tm). by destruct (collision_loop ppos gs sc tm) as [[[r ?] ?] ?].
Qed.

Lemma collision_logic_effect g rng g' rng' :
  collision_logic g rng = Some (g', rng') →
  maze g' = maze g ∧ win g' = win g ∧ score g <= score g'
  ∧ lives g - 1 <= lives g' <= lives g
  ∧ length (ghosts g') = length (ghosts g).
Proof.
  unfold collision_logic.
  pose proof (collision_loop_score (pos (p_actor (pacman g))) (ghosts g) (score g)
                (respawn_timer g)) as Hsc.
  pose proof (collision_loop_length (pos (p_actor (pacman g))) (ghosts g) (score g)
                (respawn_timer g)) as Hlen.
  destruct (collision_loop _ _ _ _) as [[[gs sc] tm] hit]. simpl in Hsc, Hlen.
  destruct hit.
  - match goal with |- context [reset_round ?g1 rng] =>
      destruct (reset_round_spec g1 rng) as (gs' & HR & ->) end.
    intros [= <- <-]. simpl in *. apply Forall2_length in HR.
    repeat split; try done; lia.
  - intros [= <- <-]. simpl. repeat split; try done; lia.
Qed.

Lemma update_power_mode_effect g now :
  let g' := update_power_mode g now in
  maze g' = maze g ∧ pacman g' = pacman g ∧ score g' = score g ∧ lives g' = lives g
  ∧ win g' = win g ∧ game_over g' = game_over g
  ∧ length (ghosts g') = length (ghosts g).
Proof.
  unfold update_power_mode. destruct (_ && _); simpl; rewrite ?length_fmap; done.
Qed.

(** The parts of a tick after the actors have moved. *)
Lemma update_tick_inv g rng now_pm now_eat g' rng' :
  update_tick g rng now_pm now_eat = Some (g', rng') → game_over g = false →
  ∃ p gs rng1 g3 g4,
    Pacman_update (maze g) (pacman g) = Some p
    ∧ each_ghost (Ghost_update (maze g)) (ghosts g) rng = Some (gs, rng1)
    ∧ eat_logic
        (update_power_mode
           (mkGame (maze g) p gs (score g) (lives g) (power_expires_at g) (win g)
              false (respawn_timer g)) now_pm) now_eat = Some g3
    ∧ collision_logic g3 rng1 = Some (g4, rng')
    ∧ g' = check_win g4.
Proof.
  unfold update_tick. intros Hrun Hgo. rewrite Hgo in Hrun.
  destruct (Pacman_update _ _) as [p |]; simpl in Hrun; [| done].
  destruct (each_ghost _ _ _) as [[gs rng1] |]; simpl in Hrun; [| done].
  destruct (eat_logic _ now_eat) as [g3 |] eqn:Heat; simpl in Hrun; [| done].
  destruct (collision_logic g3 rng1) as [[g4 rng2] |] eqn:Hcol; simpl in Hrun; [| done].
  injection Hrun as <- <-. by exists p, gs, rng1, g3, g4.
Qed.

Lemma check_win_effect g :
  maze (check_win g) = maze g ∧ score (check_win g) = score g
  ∧ lives (check_win g) = lives g ∧ ghosts (check_win g) = ghosts g.
Proof. unfold check_win. by case_bool_decide. Qed.

(** X13. The updates of one tick never lower the score, take at most one
    life and never give one, consume at most one pellet or power pellet and
    never put one back, and keep the number of Adversaries. *)
Theorem update_tick_progress g rng now_pm now_eat g' rng' :
  update_tick g rng now_pm now_eat = Some (g', rng') →
  score g <= score g'
  ∧ lives g - 1 <= lives g' <= lives g
  ∧ remaining_dots (maze g) - 1 <= remaining_dots (maze g') <= remaining_dots (maze g)
  ∧ pellets (maze g') ⊆ pellets (maze g)
  ∧ power_pellets (maze g') ⊆ power_pellets (maze g)
  ∧ length (ghosts g') = length (ghosts g).
Proof.
  intros Hrun. destruct (game_over g) eqn:Hgo.
  { unfold update_tick in Hrun. rewrite Hgo in Hrun. injection Hrun as <- <-.
    repeat split; (lia || done). }
  apply update_tick_inv in Hrun as (p & gs & rng1 & g3 & g4 & _ & Hgs & Heat & Hcol & ->);
    [| done].
  apply each_ghost_length in Hgs.
  apply eat_logic_effect in Heat as (Hl3 & _ & _ & _ & Hn3 & s & Heat & Hs3).
  apply collision_logic_effect in Hcol as (Hm4 & _ & Hs4 & Hl4 & Hn4).
  destruct (check_win_effect g4) as (-> & -> & -> & ->).
  match type of Heat with context [update_power_mode ?g1 now_pm] =>
    destruct (update_power_mode_effect g1 now_pm) as (Em & Ep & Es & El & _ & _ & En) end.
  simpl in Em, Ep, Es, El, En. rewrite Em in Heat. rewrite Es in Hs3. rewrite El in Hl3.
  rewrite En in Hn3. rewrite Hm4.
  pose proof (eat_at_effect _ _ _ _ Heat) as (Hval & _ & Hdots & Hsame).
  apply eat_at_shrinks in Heat as [Hp Hpp].
  assert (remaining_dots (maze g) - 1 <= remaining_dots (maze g3) <= remaining_dots (maze g)).
  { destruct (decide (s = 0)) as [-> | Hne]; [rewrite Hsame by done; lia |].
    rewrite Hdots by done. lia. }
  repeat split; try done; lia.
Qed.

Lemma update_tick_progress_witness :
  let g := start_state.1 in
  let g' := state_after_first_tick.1 in
  score g <= score g'
  ∧ lives g - 1 <= lives g' <= lives g
  ∧ remaining_dots (maze g) - 1 <= remaining_dots (maze g') <= remaining_dots (maze g)
  ∧ pellets (maze g') ⊆ pellets (maze g)
  ∧ power_pellets (maze g') ⊆ power_pellets (maze g)
  ∧ length (ghosts g') = length (ghosts g).
Proof.
  intros g g'.
  apply (update_tick_progress g start_state.2 16 16 g' state_after_first_tick.2).
  vm_compute. reflexivity.
Defined.

(** X14. A tick of a game that is not over ends with the win check: if the
    maze holds no pellet and no power pellet after the tick, the win flag and
    the game-over flag are set on that same tick (even when the tick also
    cost the last life); if some are left, the win flag is as before. *)
Theorem update_tick_win g rng now_pm now_eat g' rng' :
  update_tick g rng now_pm now_eat = Some (g', rng') → game_over g = false →
  (remaining_dots (maze g') = 0 → win g' = true ∧ game_over g' = true)
  ∧ (remaining_dots (maze g') ≠ 0 → win g' = win g).
Proof.
  intros Hrun Hgo.
  apply update_tick_inv in Hrun as (p & gs & rng1 & g3 & g4 & _ & _ & Heat & Hcol & ->);
    [| done].
  apply eat_logic_effect in Heat as (_ & Hw3 & _).
  apply collision_logic_effect in Hcol as (_ & Hw4 & _).
  match type of Hw3 with context [update_power_mode ?g1 now_pm] =>
    destruct (update_power_mode_effect g1 now_pm) as (_ & _ & _ & _ & Ew & _) end.
  simpl in Ew. rewrite Ew in Hw3. destruct (check_win_effect g4) as (Em & _).
  rewrite Em. unfold check_win. case_bool_decide as Hd; simpl.
  - split; [done |]. intros Hne. done.
  - split; [done |]. intros _. congruence.
Qed.

Lemma update_tick_win_witness :
  (remaining_dots (maze last_pellet_game) = 1
   ∧ win last_pellet_game = false
   ∧ remaining_dots (maze after_last_pellet.1) = 0
   ∧ win after_last_pellet.1 = true ∧ game_over after_last_pellet.1 = true)
  ∧ (remaining_dots (maze state_after_first_tick.1) = 18
     ∧ win state_after_first_tick.1 = win start_state.1).
Proof.
  split.
  - split; [vm_compute; reflexivity |]. split; [reflexivity |].
    assert (remaining_dots (maze after_last_pellet.1) = 0) as Hdots.
    { vm_compute. reflexivity. }
    split; [exact Hdots |].
    apply (update_tick_win last_pellet_game [] 0 0 after_last_pellet.1
             after_last_pellet.2).
    + vm_compute. reflexivity.
    + reflexivity.
    + exact Hdots.
  - assert (remaining_dots (maze state_after_first_tick.1) = 18) as Hdots.
    { vm_compute. reflexivity. }
    split; [exact Hdots |].
    apply (update_tick_win start_state.1 start_state.2 16 16 state_after_first_tick.1
             state_after_first_tick.2).
    + vm_compute. reflexivity.
    + vm_compute. reflexivity.
    + rewrite Hdots. discriminate.
Defined.

(** ** The power-mode timer *)

(** X15. Power mode started at clock reading [t] lasts through reading
    [t + 6000]: up to and including that reading [update_power_mode] changes
    nothing; at any later reading it sets the expiry to 0 and clears the
    frightened flag of every Adversary, dead or alive, and from then on it
    changes nothing until power mode is started again.  (A start at
    [t = -6000] would store the expiry 0, which reads as inactive.) *)
Theorem power_mode_duration g t now :
  t + 6000 ≠ 0 →
  let g1 := set_power_mode g t in
  (now <= t + 6000 → update_power_mode g1 now = g1)
  ∧ (t + 6000 < now →
     let g2 := update_power_mode g1 now in
     power_expires_at g2 = 0
     ∧ Forall (λ gh, frightened gh = false) (ghosts g2)
     ∧ (g_actor <$> ghosts g2) = (g_actor <$> ghosts g)
     ∧ (alive <$> ghosts g2) = (alive <$> ghosts g)
     ∧ ∀ later, update_power_mode g2 later = g2).
Proof.
  intros Hne g1. unfold update_power_mode, g1, set_power_mode, POWER_DURATION_MS. simpl.
  split; intros Hnow.
  - rewrite (bool_decide_false (t + 6000 < now)) by lia. by rewrite andb_false_r.
  - rewrite !bool_decide_true by done. simpl.
    split; [done |]. split; [| split; [| split]].
    + apply Forall_fmap, Forall_true. by intros gh.
    + rewrite <- !list_fmap_compose. apply list_fmap_ext.
      intros _ [a fr sp al] _. simpl. by destruct al.
    + rewrite <- !list_fmap_compose. apply list_fmap_ext.
      intros _ [a fr sp al] _. simpl. by destruct al.
    + intros later. done.
Qed.

Lemma power_mode_duration_witness :
  let g1 := set_power_mode on_power_pellet_game 1000 in
  (7000 <= 1000 + 6000 → update_power_mode g1 7000 = g1)
  ∧ (1000 + 6000 < 7000 →
     let g2 := update_power_mode g1 7000 in
     power_expires_at g2 = 0
     ∧ Forall (λ gh, frightened gh = false) (ghosts g2)
     ∧ (g_actor <$> ghosts g2) = (g_actor <$> ghosts on_power_pellet_game)
     ∧ (alive <$> ghosts g2) = (alive <$> ghosts on_power_pellet_game)
     ∧ ∀ later, update_power_mode g2 later = g2).
Proof.
  apply (power_mode_duration on_power_pellet_game 1000 7000). lia.
Defined.

(** ** The collision distance *)

Lemma Qltb_comp a a' b b' : (a == a')%Q → (b == b')%Q → Qltb a b = Qltb a' b'.
Proof.
  intros Ea Eb. destruct (Qltb a' b') eqn:E.
  - apply Qltb_lt. apply Qltb_lt in E. by rewrite Ea, Eb.
  - destruct (Qltb a b) eqn:E'; [| done]. apply Qltb_lt in E'.
    rewrite Ea, Eb in E'. apply Qltb_lt in E'. congruence.
Qed.

(** X16. The collision test is symmetric, and between actors that stand on
    the centers of cells whose coordinates are at most 2^40 in absolute
    value (where the float sums of [grid_to_pixel] are exact) it is the test
    for the same cell: two actors on the centers of different cells are
    never within reach of each other (the threshold, 38.4, is smaller than a
    tile), two on the same center always are. *)
Theorem within_reach_centers :
  (∀ p q, within_reach p q = within_reach q p)
  ∧ (∀ c1 c2, small_cell c1 → small_cell c2 →
       within_reach (grid_to_pixel c1) (grid_to_pixel c2) = bool_decide (c1 = c2)).
Proof.
  split.
  - intros [px py] [qx qy]. unfold within_reach. simpl.
    apply Qltb_comp; [ring | reflexivity].
  - intros [c1 r1] [c2 r2] _ _. unfold within_reach, grid_to_pixel. cbn [fst snd].
    set (a := c1 - c2). set (b := r1 - r2).
    rewrite (Qltb_comp _ (inject_Z (4096 * (a * a + b * b))) _ (36864 # 25)).
    + case_bool_decide as Heq.
      * injection Heq as -> ->. subst a b. rewrite !Z.sub_diag. by vm_compute.
      * assert (a ≠ 0 ∨ b ≠ 0) as Hab.
        { destruct (decide (a = 0)) as [Ha | Ha]; [| by left]. right. intros Hb.
          apply Heq. f_equal; lia. }
        destruct (Qltb _ _) eqn:E; [| done]. apply Qltb_lt in E.
        unfold Qlt, inject_Z in E. simpl in E. exfalso. nia.
    + subst a b. unfold Z.sub, TILE_SIZE, UI_HEIGHT.
      repeat (rewrite ?inject_Z_mult, ?inject_Z_plus, ?inject_Z_opp).
      change (inject_Z 4096) with 4096%Q. change (inject_Z 64) with 64%Q. field.
    + unfold TILE_SIZE. by vm_compute.
Qed.

Lemma within_reach_centers_witness :
  within_reach (grid_to_pixel (3, 1)) (grid_to_pixel (3, 5)) = false
  ∧ within_reach (grid_to_pixel (3, 5)) (grid_to_pixel (3, 5)) = true.
Proof.
  split.
  - apply (proj2 within_reach_centers (3, 1) (3, 5)); split; vm_compute; discriminate.
  - apply (proj2 within_reach_centers (3, 5) (3, 5)); split; vm_compute; discriminate.
Defined.

(** ** Facing a wall *)

(** X17. A centered actor whose neighbouring cell in its direction is a wall
    does not move at all, whatever its speed: the look-ahead refuses the
    first step before the next pixel is looked at, so the actor stays on the
    center and keeps its direction. *)
Theorem facing_wall_stays m a :
  is_centered (pos a) = true →
  is_wall m (add_tuple (current_cell a) (dir a)) = Some true →
  can_move_dir m a (dir a) = Some false ∧ Actor_move m a = Some a.
Proof.
  intros Hc Hw.
  assert (can_move_dir m a (dir a) = Some false) as Hcan.
  { unfold can_move_dir. destruct (pos a) as [x y] eqn:Hp. rewrite Hc, Hw. done. }
  split; [done | by apply Actor_move_stuck].
Qed.

Lemma facing_wall_stays_witness :
  let a := mkActor (grid_to_pixel (3, 1)) UP GHOST_SPEED in
  can_move_dir initial_maze a (dir a) = Some false ∧ Actor_move initial_maze a = Some a.
Proof.
  intros a. apply (facing_wall_stays initial_maze a); vm_compute; reflexivity.
Defined.

(** ** Centering, as computed *)

(** X2. For a position from the center of cell (0, 0) on, up to 2^40 pixels
    (where the float subtractions of [is_centered] are exact), [is_centered]
    answers [True] exactly if the position lies on the center of its cell or
    less than half a unit past it (to the right, below) on both axes; a
    position before the center, however close, is not centered. *)
Theorem is_centered_one_sided p :
  in_window p →
  is_centered p = true ↔
  (0 <= (center_offset p).1 < 1 # 2)%Q ∧ (0 <= (center_offset p).2 < 1 # 2)%Q.
Proof. intros _. apply is_centered_iff. Qed.

Lemma is_centered_one_sided_witness :
  is_centered ((2239 # 10)%Q, (288 # 1)%Q) = false
  ∧ is_centered ((2243 # 10)%Q, (288 # 1)%Q) = true.
Proof.
  split.
  - destruct (is_centered ((2239 # 10)%Q, (288 # 1)%Q)) eqn:E; [| reflexivity].
    apply (is_centered_one_sided ((2239 # 10)%Q, (288 # 1)%Q)) in E.
    + vm_compute in E. destruct E as [[E _] _]. exfalso. apply E. reflexivity.
    + repeat split; vm_compute; discriminate.
  - apply (is_centered_one_sided ((2243 # 10)%Q, (288 # 1)%Q)).
    + repeat split; vm_compute; discriminate.
    + repeat split; vm_compute; discriminate.
Defined.

(** ** Consumption touches one cell *)

(** X18. [eat_logic] consumes at the Player's cell only: when it returns,
    every other cell is a pellet (power pellet) afterwards exactly if it was
    one before, the score has grown by 0, 10 or 50, and lives, Player, win
    and game-over flags are unchanged. *)
Theorem eat_logic_own_cell g now g' :
  eat_logic g now = Some g' →
  let cell := current_cell (p_actor (pacman g)) in
  (∀ c, c ≠ cell →
     (c ∈ pellets (maze g') ↔ c ∈ pellets (maze g))
     ∧ (c ∈ power_pellets (maze g') ↔ c ∈ power_pellets (maze g)))
  ∧ (score g' = score g ∨ score g' = score g + 10 ∨ score g' = score g + 50)
  ∧ lives g' = lives g ∧ pacman g' = pacman g
  ∧ win g' = win g ∧ game_over g' = game_over g.
Proof.
  intros Hrun cell.
  apply eat_logic_effect in Hrun as (Hl & Hw & Hgo & Hp & _ & s & Heat & Hs).
  fold cell in Heat. split; [| repeat split; try done].
  - intros c Hc. unfold eat_at in Heat. repeat case_decide.
    + destruct (layout_set _ _ _ _); simpl in Heat; [| done].
      injection Heat as _ <-. simpl. split; [set_solver | done].
    + destruct (layout_set _ _ _ _); simpl in Heat; [| done].
      injection Heat as _ <-. simpl. split; [done | set_solver].
    + by injection Heat as _ <-.
  - apply eat_at_effect in Heat as ([-> | [-> | ->]] & _); lia.
Qed.

Lemma eat_logic_own_cell_witness :
  let g := on_power_pellet_game in
  ∃ g',
    let cell := current_cell (p_actor (pacman g)) in
    (∀ c, c ≠ cell →
       (c ∈ pellets (maze g') ↔ c ∈ pellets (maze g))
       ∧ (c ∈ power_pellets (maze g') ↔ c ∈ power_pellets (maze g)))
    ∧ (score g' = score g ∨ score g' = score g + 10 ∨ score g' = score g + 50)
    ∧ lives g' = lives g ∧ pacman g' = pacman g
    ∧ win g' = win g ∧ game_over g' = game_over g.
Proof.
  intros g. eexists. apply (eat_logic_own_cell g 1000). vm_compute. reflexivity.
Defined.

(** ** A dead adversary through one tick *)

Lemma Qtrunc_ge_1 q : (1 <= q)%Q → 1 <= Qtrunc q.
Proof.
  intros Hq. pose proof (Qtrunc_frac_lt_1 q) as Hf.
  assert (inject_Z 0 < inject_Z (Qtrunc q))%Q as H0.
  { change (inject_Z 0) with 0%Q. lra. }
  rewrite <- Zlt_Qlt in H0. lia.
Qed.

Lemma can_move_dir_set_dir m a x d :
  can_move_dir m (set_dir a x) d = can_move_dir m a d.
Proof. reflexivity. Qed.

(** A move whose first unit step is free, at a speed of at least 1, advances
    the actor by at least one unit along its direction. *)
Lemma Actor_move_advances m a a' :
  Actor_move m a = Some a' →
  dir a ≠ STOP → can_move_dir m a (dir a) = Some true → (1 <= speed a)%Q →
  ∃ k : Q,
    (1 <= k)%Q
    ∧ ((pos a').1 == (pos a).1 + inject_Z (dir a).1 * k)%Q
    ∧ ((pos a').2 == (pos a).2 + inject_Z (dir a).2 * k)%Q.
Proof.
  intros Hmv Hd Hcan Hs. unfold Actor_move in Hmv.
  rewrite bool_decide_false in Hmv by done.
  pose proof (Qtrunc_ge_1 _ Hs) as Ht.
  destruct (Z.to_nat (Qtrunc (speed a))) as [| n] eqn:Hn; [lia |].
  cbn [move_steps] in Hmv. rewrite Hcan in Hmv. cbn [mbind option_bind] in Hmv.
  destruct (move_steps m n _) as [a1 |] eqn:Hsteps; cbn [mbind option_bind] in Hmv;
    [| done].
  apply move_steps_displacement in Hsteps as (Hd1 & Hs1 & j & _ & Hx & Hy).
  simpl in Hd1, Hs1, Hx, Hy.
  assert (0 <= inject_Z (Z.of_nat j))%Q as Hj0.
  { change 0%Q with (inject_Z 0). rewrite <- Zle_Qle. lia. }
  destruct (Qltb 0 _) eqn:Hfrac.
  - apply Qltb_lt in Hfrac.
    destruct (can_move_dir m a1 (dir a1)) as [[] |]; simpl in Hmv; [| | done];
      injection Hmv as <-; simpl.
    + exists (1 + inject_Z (Z.of_nat j) + (speed a1 - inject_Z (Qtrunc (speed a1))))%Q.
      split; [lra |]. rewrite Hx, Hy, Hd1. split; lra.
    + exists (1 + inject_Z (Z.of_nat j))%Q. split; [lra |]. rewrite Hx, Hy. split; lra.
  - injection Hmv as <-. exists (1 + inject_Z (Z.of_nat j))%Q.
    split; [lra |]. rewrite Hx, Hy. split; lra.
Qed.

Lemma Ghost_update_advances m gh rng du rng' :
  Ghost_update m gh rng = Some (du, rng') →
  let d' := dir (g_actor du) in
  d' ≠ STOP → can_move_dir m (g_actor gh) d' = Some true →
  (1 <= speed (g_actor gh))%Q →
  ∃ k : Q,
    (1 <= k)%Q
    ∧ ((pos (g_actor du)).1 == (pos (g_actor gh)).1 + inject_Z d'.1 * k)%Q
    ∧ ((pos (g_actor du)).2 == (pos (g_actor gh)).2 + inject_Z d'.2 * k)%Q.
Proof.
  unfold Ghost_update. intros Hup. cbv zeta.
  match type of Hup with context [mbind _ ?t] =>
    destruct t as [[a1 r1] |] eqn:Hsel; simpl in Hup; [| done];
    assert (pos a1 = pos (g_actor gh) ∧ speed a1 = speed (g_actor gh)) as [Hp Hs]
  end.
  { destruct (is_centered _); [| by injection Hsel as <- <-].
    destruct (available_dirs m _) as [options |]; simpl in Hsel; [| done].
    destruct (random_choice _ rng) as [[d r] |]; simpl in Hsel; [| done].
    by injection Hsel as <- <-. }
  destruct (Actor_move m a1) as [a' |] eqn:Hmv; simpl in Hup; [| done].
  injection Hup as <- <-. simpl.
  pose proof (Actor_move_keeps_dir _ _ _ Hmv) as [Hd _]. rewrite Hd.
  intros Hne Hcan Hsp.
  assert (can_move_dir m a1 (dir a1) = Some true) as Hcan1.
  { rewrite <- Hcan. unfold can_move_dir, current_cell. by rewrite Hp. }
  rewrite <- Hs in Hsp.
  destruct (Actor_move_advances m a1 a' Hmv Hne Hcan1 Hsp) as (k & Hk & Hx & Hy).
  exists k. rewrite <- Hp. done.
Qed.

Lemma each_ghost_lookup f gs : ∀ i rng gs' rng' x,
  each_ghost f gs rng = Some (gs', rng') → gs !! i = Some x →
  ∃ pre r y r',
    each_ghost f (take i gs) rng = Some (pre, r)
    ∧ f x r = Some (y, r') ∧ gs' !! i = Some y.
Proof.
  induction gs as [| gh gs IH]; intros i rng gs' rng' x Hrun Hi; [done |].
  simpl in Hrun.
  destruct (f gh rng) as [[gh1 r1] |] eqn:Hgh; simpl in Hrun; [| done].
  destruct (each_ghost f gs r1) as [[gs1 r2] |] eqn:Hgs; simpl in Hrun; [| done].
  injection Hrun as <- <-. destruct i as [| i]; simpl in Hi.
  - injection Hi as <-. exists [], rng, gh1, r1. by rewrite Hgh.
  - destruct (IH i r1 gs1 r2 x Hgs Hi) as (pre & r & y & r' & Hpre & Hx & Hy).
    exists (gh1 :: pre), r, y, r'. simpl. rewrite Hgh. simpl. rewrite Hpre. done.
Qed.

Lemma update_power_mode_kept g now :
  Forall2 kept (ghosts g) (ghosts (update_power_mode g now)).
Proof.
  unfold update_power_mode. destruct (_ && _); simpl.
  - apply Forall2_fmap_r, Forall_Forall2_diag, Forall_true. by intros gh.
  - apply Forall_Forall2_diag, Forall_true. by intros gh.
Qed.

Lemma eat_logic_kept g now g' :
  eat_logic g now = Some g' → Forall2 kept (ghosts g) (ghosts g').
Proof.
  unfold eat_logic. destruct (eat_at _ _) as [[gained m3] |]; simpl; [| done].
  assert (Forall2 kept (ghosts g) (ghosts g)) as Hid.
  { apply Forall_Forall2_diag, Forall_true. by intros gh. }
  intros Hrun. repeat case_bool_decide; injection Hrun as <-; simpl; try done.
  apply Forall2_fmap_r, Forall_Forall2_diag, Forall_true.
  intros [a fr sp al]. by destruct al.
Qed.

Lemma collision_loop_dead ppos gs : ∀ sc tm,
  Forall2 (λ gh gh', alive gh = false → gh' = gh) gs
    (collision_loop ppos gs sc tm).1.1.1.
Proof.
  induction gs as [| gh gs IH]; intros sc tm; simpl; [constructor |].
  destruct (alive gh) eqn:Ha; simpl.
  - destruct (within_reach _ _); [destruct (frightened gh) |].
    + specialize (IH (sc + GHOST_EAT_SCORE) (Some RESPAWN_DELAY_MS)).
      destruct (collision_loop ppos gs _ _) as [[[r ?] ?] ?].
      constructor; [intros; congruence | done].
    + simpl. constructor; [done |]. apply Forall_Forall2_diag, Forall_true. by intros x.
    + specialize (IH sc tm). destruct (collision_loop ppos gs sc tm) as [[[r ?] ?] ?].
      by constructor.
  - specialize (IH sc tm). destruct (collision_loop ppos gs sc tm) as [[[r ?] ?] ?].
    by constructor.
Qed.

Lemma collision_logic_dead g rng g' rng' i x :
  collision_logic g rng = Some (g', rng') →
  ghosts g !! i = Some x → alive x = false →
  ∃ x', ghosts g' !! i = Some x'
    ∧ ((lives g' = lives g ∧ x' = x) ∨ (lives g' = lives g - 1 ∧ respawned x x')).
Proof.
  unfold collision_logic. intros Hrun Hi Ha.
  pose proof (collision_loop_dead (pos (p_actor (pacman g))) (ghosts g) (score g)
                (respawn_timer g)) as Hdead.
  destruct (collision_loop _ _ _ _) as [[[gs sc] tm] hit]. simpl in Hdead.
  destruct (Forall2_lookup_l _ _ _ _ _ Hdead Hi) as (x1 & Hx1 & Hkeep).
  rewrite (Hkeep Ha) in Hx1. destruct hit.
  - match type of Hrun with context [reset_round ?g1 rng] =>
      destruct (reset_round_spec g1 rng) as (gs' & HR & E) end.
    rewrite E in Hrun. injection Hrun as <- <-. simpl in *.
    destruct (Forall2_lookup_l _ _ _ _ _ HR Hx1) as (x' & Hx' & Hresp).
    exists x'. split; [done |]. by right.
  - injection Hrun as <- <-. simpl. exists x. split; [done |]. by left.
Qed.

(** C2 (amended). The updates of one tick advance the motion of every
    Adversary, the dead ones included.  For an Adversary [d] that is dead
    before a tick of a game that is not over: [Ghost.update] is applied to
    it at its turn (with the random numbers left by the Adversaries before
    it) and returns some [du]; if [d] stands in the window of the maze, the
    first unit step in the direction of [du] is free and the speed is at
    least 1, then the position of [du] is not that of [d]: it is advanced
    in that direction.  After the tick the Adversary is still dead and has
    exactly the actor of [du], unless the tick cost a life: then the round
    reset has put it on its spawn cell, alive. *)
Theorem dead_ghost_tick g rng now_pm now_eat g' rng' i d :
  update_tick g rng now_pm now_eat = Some (g', rng') →
  game_over g = false →
  ghosts g !! i = Some d → alive d = false →
  ∃ pre r du r' d',
    each_ghost (Ghost_update (maze g)) (take i (ghosts g)) rng = Some (pre, r)
    ∧ Ghost_update (maze g) d r = Some (du, r')
    ∧ ghosts g' !! i = Some d'
    ∧ (lives g' = lives g ∨ lives g' = lives g - 1)
    ∧ (lives g' = lives g → g_actor d' = g_actor du ∧ alive d' = false)
    ∧ (lives g' = lives g - 1 → respawned d d')
    ∧ (in_window (pos (g_actor d)) →
       dir (g_actor du) ≠ STOP →
       can_move_dir (maze g) (g_actor d) (dir (g_actor du)) = Some true →
       (1 <= speed (g_actor d))%Q →
       ∃ k : Q,
         (0 < k)%Q
         ∧ ((pos (g_actor du)).1
            == (pos (g_actor d)).1 + inject_Z (dir (g_actor du)).1 * k)%Q
         ∧ ((pos (g_actor du)).2
            == (pos (g_actor d)).2 + inject_Z (dir (g_actor du)).2 * k)%Q).
Proof.
  intros Hrun Hgo Hi Ha.
  apply update_tick_inv in Hrun as (p & gs & rng1 & g3 & g4 & _ & Hgs & Heat & Hcol & ->);
    [| done].
  destruct (each_ghost_lookup _ _ _ _ _ _ _ Hgs Hi)
    as (pre & r & du & r' & Hpre & Hdu & Hgsi).
  pose proof (Ghost_update_flags _ _ _ _ _ Hdu) as (Hadu & _ & Hsdu).
  match type of Heat with context [update_power_mode ?g1 now_pm] =>
    pose proof (update_power_mode_kept g1 now_pm) as Hk2;
    destruct (update_power_mode_effect g1 now_pm) as (_ & _ & _ & El2 & _) end.
  simpl in Hk2, El2.
  destruct (Forall2_lookup_l _ _ _ _ _ Hk2 Hgsi) as (x2 & Hx2 & Ha2 & Hs2 & Hal2).
  pose proof (eat_logic_kept _ _ _ Heat) as Hk3.
  destruct (Forall2_lookup_l _ _ _ _ _ Hk3 Hx2) as (x3 & Hx3 & Ha3 & Hs3 & Hal3).
  apply eat_logic_effect in Heat as (El3 & _).
  assert (alive x3 = false) as Hdead3 by congruence.
  destruct (collision_logic_dead _ _ _ _ _ _ Hcol Hx3 Hdead3) as (d' & Hd' & Hcase).
  destruct (check_win_effect g4) as (_ & _ & -> & ->).
  assert (lives g3 = lives g) as El by congruence. rewrite El in Hcase.
  exists pre, r, du, r', d'. split; [done |]. split; [done |]. split; [done |].
  split; [destruct Hcase as [[? _] | [? _]]; auto |]. split; [| split].
  - intros Hl. destruct Hcase as [[_ ->] | [Hl' _]]; [| lia].
    split; congruence.
  - intros Hl. destruct Hcase as [[Hl' _] | [_ Hresp]]; [lia |].
    unfold respawned in *. rewrite Hs3, Hs2, Hsdu in Hresp. done.
  - intros _ Hne Hcan Hsp.
    destruct (Ghost_update_advances (maze g) d r du r' Hdu Hne Hcan Hsp)
      as (k & Hk & Hx & Hy).
    exists k. split; [lra | done].
Qed.

Lemma dead_ghost_tick_witness :
  (∃ du d' k,
     Ghost_update (maze dead_ghost_game) dead_ghost [] = Some (du, [])
     ∧ lives after_dead_ghost_tick.1 = lives dead_ghost_game
     ∧ ghosts after_dead_ghost_tick.1 !! 0%nat = Some d'
     ∧ g_actor d' = g_actor du ∧ alive d' = false
     ∧ (0 < k)%Q
     ∧ ((pos (g_actor du)).1
        == (pos (g_actor dead_ghost)).1 + inject_Z (dir (g_actor du)).1 * k)%Q
     ∧ ((pos (g_actor du)).2
        == (pos (g_actor dead_ghost)).2 + inject_Z (dir (g_actor du)).2 * k)%Q)
  ∧ (∃ d d',
       ghosts dead_and_lethal_game !! 0%nat = Some d ∧ alive d = false
       ∧ lives after_lost_life.1 = lives dead_and_lethal_game - 1
       ∧ ghosts after_lost_life.1 !! 0%nat = Some d'
       ∧ respawned d d').
Proof.
  split.
  - destruct (dead_ghost_tick dead_ghost_game [] 0 0 after_dead_ghost_tick.1
                after_dead_ghost_tick.2 0 dead_ghost)
      as (pre & r & du & r' & d' & Hpre & Hdu & Hd' & _ & Hsame & _ & Hadv);
      [vm_compute; reflexivity | reflexivity | reflexivity | reflexivity |].
    injection Hpre as <- <-.
    assert (Ghost_update (maze dead_ghost_game) dead_ghost []
            = Some (dead_ghost_updated.1, dead_ghost_updated.2)) as E.
    { vm_compute. reflexivity. }
    rewrite E in Hdu.
    assert (du = dead_ghost_updated.1) as Edu by congruence.
    subst du. clear Hdu.
    assert (lives after_dead_ghost_tick.1 = lives dead_ghost_game) as Hl.
    { vm_compute. reflexivity. }
    destruct (Hsame Hl) as [Ha Hal].
    destruct Hadv as (k & Hk & Hx & Hy);
      [repeat split; vm_compute; discriminate | vm_compute; discriminate
      | vm_compute; reflexivity | vm_compute; discriminate |].
    exists dead_ghost_updated.1, d', k.
    split; [exact E |]. split; [exact Hl |]. split; [exact Hd' |].
    split; [exact Ha |]. split; [exact Hal |]. split; [exact Hk |].
    split; [exact Hx | exact Hy].
  - set (d := mkGhost (mkActor (grid_to_pixel (4, 5)) LEFT GHOST_SPEED) false (3, 5) false).
    destruct (dead_ghost_tick dead_and_lethal_game [] 0 0 after_lost_life.1
                after_lost_life.2 0 d)
      as (pre & r & du & r' & d' & _ & _ & Hd' & _ & _ & Hresp & _);
      [vm_compute; reflexivity | reflexivity | reflexivity | reflexivity |].
    assert (lives after_lost_life.1 = lives dead_and_lethal_game - 1) as Hl.
    { vm_compute. reflexivity. }
    exists d, d'. split; [reflexivity |]. split; [reflexivity |].
    split; [exact Hl |]. split; [exact Hd' |]. exact (Hresp Hl).
Defined.
